(** * Database-Encryption-Experiment: a model of [encryption_experiment.py]

    The script benchmarks three ways of storing patient rows in MySQL:
    plain text ([run_baseline]), AES-GCM under one key ([run_aes]) and
    an envelope scheme with one AES key per row wrapped under RSA-OAEP
    ([run_hybrid]); [main] replays one generated data set through the
    three and tabulates the timings.

    The Python code is embedded as functions in a state-and-exception
    monad over a [World] (random source, wall clock, Faker, MySQL
    tables).  PyCryptodome's primitives are a parameter ([Crypto]); the
    laws a statement relies on are hypotheses of that statement. *)

From Stdlib Require Import QArith.
From Stdlib Require Import Strings.Byte.
From stdpp Require Import gmap strings list.

Local Open Scope string_scope.
Local Open Scope list_scope.
Local Open Scope nat_scope.

(** ** Python [bytes] *)

Abbreviation bytes := (list byte).

Definition byte_of_N (n : N) : byte :=
  match Byte.of_N (n mod 256) with
  | Some b => b
  | None => x00
  end.

Definition bits8 : Type :=
  bool * (bool * (bool * (bool * (bool * (bool * (bool * bool)))))).

Definition xor_bits (a b : bits8) : bits8 :=
  let '(a0, (a1, (a2, (a3, (a4, (a5, (a6, a7))))))) := a in
  let '(b0, (b1, (b2, (b3, (b4, (b5, (b6, b7))))))) := b in
  (xorb a0 b0, (xorb a1 b1, (xorb a2 b2, (xorb a3 b3,
  (xorb a4 b4, (xorb a5 b5, (xorb a6 b6, xorb a7 b7))))))).

Definition byte_xor (a b : byte) : byte :=
  Byte.of_bits (xor_bits (Byte.to_bits a) (Byte.to_bits b)).

(** The byte whose only set bit is bit [j] (bit 0 is the least
    significant one); [x00] when [j] is not a bit position. *)
Definition bit_mask (j : nat) : byte :=
  match j with
  | 0 => x01 | 1 => x02 | 2 => x04 | 3 => x08
  | 4 => x10 | 5 => x20 | 6 => x40 | 7 => x80
  | _ => x00
  end.

(** Tampering: flip bit [i mod 8] of byte [i / 8] of a blob. *)
Fixpoint flip_bit (i : nat) (blob : bytes) : bytes :=
  match blob with
  | [] => []
  | b :: rest =>
      if i <? 8 then byte_xor b (bit_mask i) :: rest
      else b :: flip_bit (i - 8) rest
  end.

(** ** Python [str] and [str.encode('utf-8')] *)

(** A [str] is a sequence of code points. *)
Abbreviation str := (list N).

Definition is_surrogate (c : N) : bool :=
  ((0xD800 <=? c) && (c <=? 0xDFFF))%N.

Definition utf8_char (c : N) : option bytes :=
  if (c <? 0x80)%N then Some [byte_of_N c]
  else if (c <? 0x800)%N then
    Some [byte_of_N (0xC0 + c / 64); byte_of_N (0x80 + c mod 64)]
  else if (c <? 0x10000)%N then
    if is_surrogate c then None
    else Some [byte_of_N (0xE0 + c / 4096);
               byte_of_N (0x80 + (c / 64) mod 64);
               byte_of_N (0x80 + c mod 64)]
  else if (c <? 0x110000)%N then
    Some [byte_of_N (0xF0 + c / 262144);
          byte_of_N (0x80 + (c / 4096) mod 64);
          byte_of_N (0x80 + (c / 64) mod 64);
          byte_of_N (0x80 + c mod 64)]
  else None.

(** [text.encode('utf-8')]; [None] stands for [UnicodeEncodeError]. *)
Fixpoint utf8_encode (s : str) : option bytes :=
  match s with
  | [] => Some []
  | c :: rest =>
      match utf8_char c, utf8_encode rest with
      | Some bs, Some tl => Some (bs ++ tl)
      | _, _ => None
      end
  end.

(** A string literal as a [str] (one code point per character). *)
Fixpoint str_of (s : string) : str :=
  match s with
  | EmptyString => []
  | String a rest => Ascii.N_of_ascii a :: str_of rest
  end.

(** [OCTET_LENGTH] of a text column (utf8mb4). *)
Definition octet_length_text (s : str) : nat :=
  match utf8_encode s with
  | Some bs => length bs
  | None => 0
  end.

(** ** Exceptions, the world and the monad *)

Inductive PyExc : Type :=
| MySQLError                       (* mysql.connector.Error *)
| KeyError (key : string)
| IndexError
| ValueError (msg : string)
| UnicodeEncodeError
| UnboundLocalError (name : string)
| ZeroDivisionError.

(** A generated patient record: (name, email, notes). *)
Abbreviation Row := (str * str * str)%type.

Definition fields (row : Row) : list str :=
  let '(name, email, notes) := row in [name; email; notes].

(** What the script can see and change.  A table that was never created
    is [None]; rows are kept without their AUTO_INCREMENT id.  Two fields
    are ghosts, kept to state what the script does and read by none of
    its code: [calls], a trace of the strategy invocations with the data
    set each one received, and [rows_read], the number of fetched rows
    the read loops of [run_aes] and [run_hybrid] have taken up. *)
Record World : Type := mkWorld {
  rng_pos : nat;          (* bytes taken from Crypto.Random so far *)
  clock_reads : nat;      (* calls of time.time() so far *)
  fake_calls : nat;       (* calls of a Faker provider so far *)
  db_ops : nat;           (* statements sent to the server so far *)
  patient_baseline : option (list Row);
  patient_aes : option (list (list bytes));
  patient_hybrid : option (list (list bytes));
  calls : list (string * list Row);
  rows_read : nat
}.

Definition set_rng_pos (n : nat) (w : World) : World :=
  mkWorld n (clock_reads w) (fake_calls w) (db_ops w)
          (patient_baseline w) (patient_aes w) (patient_hybrid w) (calls w)
          (rows_read w).
Definition set_clock_reads (n : nat) (w : World) : World :=
  mkWorld (rng_pos w) n (fake_calls w) (db_ops w)
          (patient_baseline w) (patient_aes w) (patient_hybrid w) (calls w)
          (rows_read w).
Definition set_fake_calls (n : nat) (w : World) : World :=
  mkWorld (rng_pos w) (clock_reads w) n (db_ops w)
          (patient_baseline w) (patient_aes w) (patient_hybrid w) (calls w)
          (rows_read w).
Definition set_db_ops (n : nat) (w : World) : World :=
  mkWorld (rng_pos w) (clock_reads w) (fake_calls w) n
          (patient_baseline w) (patient_aes w) (patient_hybrid w) (calls w)
          (rows_read w).
Definition set_patient_baseline (t : option (list Row)) (w : World) : World :=
  mkWorld (rng_pos w) (clock_reads w) (fake_calls w) (db_ops w)
          t (patient_aes w) (patient_hybrid w) (calls w) (rows_read w).
Definition set_patient_aes (t : option (list (list bytes))) (w : World) : World :=
  mkWorld (rng_pos w) (clock_reads w) (fake_calls w) (db_ops w)
          (patient_baseline w) t (patient_hybrid w) (calls w) (rows_read w).
Definition set_patient_hybrid (t : option (list (list bytes))) (w : World) : World :=
  mkWorld (rng_pos w) (clock_reads w) (fake_calls w) (db_ops w)
          (patient_baseline w) (patient_aes w) t (calls w) (rows_read w).
Definition set_calls (c : list (string * list Row)) (w : World) : World :=
  mkWorld (rng_pos w) (clock_reads w) (fake_calls w) (db_ops w)
          (patient_baseline w) (patient_aes w) (patient_hybrid w) c
          (rows_read w).
Definition set_rows_read (n : nat) (w : World) : World :=
  mkWorld (rng_pos w) (clock_reads w) (fake_calls w) (db_ops w)
          (patient_baseline w) (patient_aes w) (patient_hybrid w) (calls w) n.

(** What the script cannot control: the bytes the random source hands
    out, the wall clock, Faker's output and the server's failures. *)
Record Env : Type := mkEnv {
  entropy : nat -> byte;     (* the i-th random byte *)
  clock : nat -> Q;          (* the value of the i-th time.time() *)
  fake : nat -> str;         (* the text of the i-th Faker call *)
  db_fault : nat -> bool     (* does the i-th statement raise Error? *)
}.

Definition M (A : Type) : Type := World -> (PyExc + A) * World.

#[global] Instance M_ret : MRet M := fun A (a : A) w => (inr a, w).
#[global] Instance M_bind : MBind M := fun A B (f : A -> M B) (m : M A) w =>
  match m w with
  | (inl e, w') => (inl e, w')
  | (inr a, w') => f a w'
  end.

Definition raise {A : Type} (e : PyExc) : M A := fun w => (inl e, w).
Definition gets {A : Type} (f : World -> A) : M A := fun w => (inr (f w), w).
Definition modify (f : World -> World) : M unit := fun w => (inr tt, f w).

(** [try: body / except: handler] (a bare [except] catches everything). *)
Definition try_except {A : Type} (body handler : M A) : M A := fun w =>
  match body w with
  | (inl _, w') => handler w'
  | (inr a, w') => (inr a, w')
  end.

(** [try: body / except Error: handler] (mysql.connector's [Error] only). *)
Definition try_except_Error {A : Type} (body handler : M A) : M A := fun w =>
  match body w with
  | (inl MySQLError, w') => handler w'
  | r => r
  end.

(** [for x in xs: body x] *)
Fixpoint for_each {A : Type} (xs : list A) (body : A -> M unit) : M unit :=
  match xs with
  | [] => mret tt
  | x :: rest => body x;; for_each rest body
  end.

(** [out = []; for x in xs: out.append(f x)] *)
Fixpoint collect {A B : Type} (xs : list A) (f : A -> M B) : M (list B) :=
  match xs with
  | [] => mret []
  | x :: rest => y ← f x; ys ← collect rest f; mret (y :: ys)
  end.

(** [range(0, stop, step)] for a positive [step]. *)
Definition range_step (stop step : nat) : list nat :=
  (fun k => k * step) <$> seq 0 ((stop + step - 1) / step).

(** [xs[i:i + n]] *)
Definition slice {A : Type} (i n : nat) (xs : list A) : list A :=
  take n (drop i xs).

(** Python's [round(x, 2)] on an exact rational: round half to even; the
    result is kept in lowest terms. *)
Definition round_half_even (x : Q) : Z :=
  let n := Qnum x in
  let d := Z.pos (Qden x) in
  let q := (n / d)%Z in
  match (2 * (n mod d) ?= d)%Z with
  | Lt => q
  | Gt => (q + 1)%Z
  | Eq => if Z.even q then q else (q + 1)%Z
  end.

Definition round2 (x : Q) : Q :=
  Qred (inject_Z (round_half_even (x * 100)) / 100).

(** Python's [a / b] on floats: [ZeroDivisionError] when [b] is zero. *)
Definition py_div (a b : Q) : M Q :=
  if Qeq_bool b 0 then raise ZeroDivisionError else mret (a / b)%Q.

(** ** PyCryptodome, as far as the script uses it *)

(** The primitives behind [Crypto.Cipher.AES] in GCM mode and behind
    [Crypto.PublicKey.RSA] with [PKCS1_OAEP].  GCM encrypts, then
    authenticates the ciphertext: [gcm_mac key nonce ciphertext] is the
    tag. *)
Class Crypto : Type := {
  gcm_encrypt : bytes -> bytes -> bytes -> bytes;   (* key, nonce, plaintext *)
  gcm_decrypt : bytes -> bytes -> bytes -> bytes;   (* key, nonce, ciphertext *)
  gcm_mac : bytes -> bytes -> bytes -> bytes;       (* key, nonce, ciphertext *)
  RsaKey : Type;
  RsaPub : Type;
  rsa_generate : nat -> (nat -> byte) -> nat -> RsaKey * nat;
  publickey : RsaKey -> RsaPub;
  oaep_encrypt : RsaPub -> bytes -> bytes -> bytes; (* key, seed, message *)
  oaep_decrypt : RsaKey -> bytes -> option bytes
}.

(** What the theorems below assume of the primitives, one law each. *)
Definition gcm_decrypt_encrypt `{Crypto} : Prop :=
  forall key nonce pt, gcm_decrypt key nonce (gcm_encrypt key nonce pt) = pt.
Definition gcm_encrypt_length `{Crypto} : Prop :=
  forall key nonce pt, length (gcm_encrypt key nonce pt) = length pt.
Definition gcm_mac_length `{Crypto} : Prop :=
  forall key nonce ct, length (gcm_mac key nonce ct) = 16.
Definition gcm_mac_bit_sensitive `{Crypto} : Prop :=
  forall key nonce ct i,
    i < 8 * length ct -> gcm_mac key nonce (flip_bit i ct) <> gcm_mac key nonce ct.
Definition oaep_decrypt_encrypt `{Crypto} : Prop :=
  forall kp seed msg,
    length seed = 20 -> length msg <= 214 ->
    oaep_decrypt kp (oaep_encrypt (publickey kp) seed msg) = Some msg.
Definition oaep_encrypt_length `{Crypto} : Prop :=
  forall pub seed msg,
    length seed = 20 -> length msg <= 214 ->
    length (oaep_encrypt pub seed msg) = 256.

#[global] Instance byte_eq_decision : EqDecision byte := Byte.byte_eq_dec.

(** ** The script *)

Set Warnings "-abstract-large-number".

Definition CHUNK_SIZE : nat := 500.
Definition BATCH_SIZES : list nat := [1000; 5000; 10000].

(** The [results] dictionary of [main]: method, then series, then the
    values appended so far. *)
Abbreviation Results := (gmap string (gmap string (list Q))).

Section Script.
Context {C : Crypto} (E : Env).

(** *** The outside world *)

(** The [n] random bytes that start at position [pos] of the source. *)
Definition random_at (pos n : nat) : bytes := entropy E <$> seq pos n.

(** [Crypto.Random.get_random_bytes(n)] *)
Definition get_random_bytes (n : nat) : M bytes := fun w =>
  (inr (random_at (rng_pos w) n), set_rng_pos (rng_pos w + n) w).

(** [time.time()] *)
Definition time_time : M Q := fun w =>
  (inr (clock E (clock_reads w)), set_clock_reads (S (clock_reads w)) w).

(** One call of a Faker provider ([fake.name()], [fake.email()],
    [fake.text(max_nb_chars=50)]). *)
Definition fake_call : M str := fun w =>
  (inr (fake E (fake_calls w)), set_fake_calls (S (fake_calls w)) w).

(** Every round trip to the server may raise [mysql.connector.Error].
    Opening a cursor, closing a connection and printing change nothing
    here and are left out. *)
Definition db_step : M unit := fun w =>
  let w' := set_db_ops (S (db_ops w)) w in
  if db_fault E (db_ops w) then (inl MySQLError, w') else (inr tt, w').

Definition connect : M unit := db_step.
Definition commit : M unit := db_step.
Definition create_database : M unit := db_step.

Definition drop_table_if_exists {R : Type}
    (set : option (list R) -> World -> World) : M unit :=
  db_step;; modify (set None).

Definition create_table {R : Type} (get : World -> option (list R))
    (set : option (list R) -> World -> World) : M unit :=
  db_step;;
  t ← gets get;
  match t with
  | Some _ => raise MySQLError
  | None => modify (set (Some []))
  end.

Definition truncate_table {R : Type} (get : World -> option (list R))
    (set : option (list R) -> World -> World) : M unit :=
  db_step;;
  t ← gets get;
  match t with
  | Some _ => modify (set (Some []))
  | None => raise MySQLError
  end.

(** [cursor.executemany("INSERT INTO t ... VALUES ...", chunk)] *)
Definition executemany {R : Type} (get : World -> option (list R))
    (set : option (list R) -> World -> World) (chunk : list R) : M unit :=
  db_step;;
  t ← gets get;
  match t with
  | Some rows => modify (set (Some (rows ++ chunk)))
  | None => raise MySQLError
  end.

(** [cursor.execute("SELECT ... FROM t")] followed by [cursor.fetchall()] *)
Definition select_all {R : Type} (get : World -> option (list R)) : M (list R) :=
  db_step;;
  t ← gets get;
  match t with
  | Some rows => mret rows
  | None => raise MySQLError
  end.

(** SQL's [SUM] over a column of numbers: NULL over no rows. *)
Definition sql_sum (xs : list nat) : option nat :=
  match xs with
  | [] => None
  | _ => Some (sum_list xs)
  end.

(** *** [AES.new(key, AES.MODE_GCM, ...)] and its two methods

    Without a [nonce] argument the cipher draws 16 random bytes; the tag
    has 16 bytes.  The constructor rejects an empty nonce, then a key
    that is not 16, 24 or 32 bytes long ([ValueError], the second
    message abridged). *)

Record GcmCipher : Type := mkGcm { cipher_key : bytes; nonce : bytes }.

Definition aes_key_length_ok (n : nat) : bool :=
  (n =? 16) || (n =? 24) || (n =? 32).

Definition AES_new (key : bytes) (nonce_arg : option bytes) : M GcmCipher :=
  n ← match nonce_arg with
       | None => get_random_bytes 16
       | Some n => mret n
       end;
  if length n =? 0 then raise (ValueError "Nonce cannot be empty")
  else if aes_key_length_ok (length key) then mret (mkGcm key n)
  else raise (ValueError "Incorrect AES key length").

Definition encrypt_and_digest (cipher : GcmCipher) (plaintext : bytes)
    : bytes * bytes :=
  let ciphertext := gcm_encrypt (cipher_key cipher) (nonce cipher) plaintext in
  (ciphertext, gcm_mac (cipher_key cipher) (nonce cipher) ciphertext).

Definition decrypt_and_verify (cipher : GcmCipher) (ciphertext tag : bytes)
    : M bytes :=
  let plaintext := gcm_decrypt (cipher_key cipher) (nonce cipher) ciphertext in
  if bool_decide (tag = gcm_mac (cipher_key cipher) (nonce cipher) ciphertext)
  then mret plaintext
  else raise (ValueError "MAC check failed").

(** *** [RSA.generate(2048)] and [PKCS1_OAEP] for a 2048-bit key

    The modulus has 256 bytes and the hash is SHA-1 (20 bytes), so a
    message has at most 256 - 2 * 20 - 2 = 214 bytes. *)

Definition RSA_generate (bits : nat) : M RsaKey := fun w =>
  let '(key, pos) := rsa_generate bits (entropy E) (rng_pos w) in
  (inr key, set_rng_pos pos w).

Definition PKCS1_OAEP_encrypt (pub : RsaPub) (message : bytes) : M bytes :=
  if 214 <? length message then raise (ValueError "Plaintext is too long.")
  else seed ← get_random_bytes 20; mret (oaep_encrypt pub seed message).

Definition PKCS1_OAEP_decrypt (key : RsaKey) (ciphertext : bytes) : M bytes :=
  if negb (length ciphertext =? 256)
  then raise (ValueError "Ciphertext with incorrect length.")
  else match oaep_decrypt key ciphertext with
       | Some message => mret message
       | None => raise (ValueError "Incorrect decryption.")
       end.

(** [text.encode('utf-8')] *)
Definition encode (text : str) : M bytes :=
  match utf8_encode text with
  | Some bs => mret bs
  | None => raise UnicodeEncodeError
  end.

(** *** [setup_database] *)

Definition setup_database : M unit :=
  try_except_Error
    (connect;;
     create_database;;
     connect;;
     drop_table_if_exists set_patient_baseline;;
     drop_table_if_exists set_patient_aes;;
     drop_table_if_exists set_patient_hybrid;;
     create_table patient_baseline set_patient_baseline;;
     create_table patient_aes set_patient_aes;;
     create_table patient_hybrid set_patient_hybrid)
    (mret tt).

(** *** [get_exact_storage_size] *)

Inductive Query : Type := SumBaseline | SumAES | SumHybrid.

(** [OCTET_LENGTH(name) + OCTET_LENGTH(email) + ...] of every row of the
    table the query reads, when the table exists. *)
Definition row_octets (query : Query) (w : World) : option (list nat) :=
  match query with
  | SumBaseline =>
      fmap (M := list) (fun row => sum_list (octet_length_text <$> fields row))
        <$> patient_baseline w
  | SumAES =>
      fmap (M := list) (fun row => sum_list (length <$> take 3 row))
        <$> patient_aes w
  | SumHybrid =>
      fmap (M := list) (fun row => sum_list (length <$> take 4 row))
        <$> patient_hybrid w
  end.

(** [cursor.execute(query)] followed by [cursor.fetchone()]: the one
    column of the one row the aggregate returns. *)
Definition execute_sum (query : Query) : M (option nat) :=
  db_step;;
  t ← gets (row_octets query);
  match t with
  | Some octets => mret (sql_sum octets)
  | None => raise MySQLError
  end.

(** The [if]/[elif] chain over [method]; [None] leaves [query] unbound. *)
Definition select_query (method : string) : option Query :=
  if String.eqb method "Baseline" then Some SumBaseline
  else if String.eqb method "AES" then Some SumAES
  else if String.eqb method "Hybrid" then Some SumHybrid
  else None.

(** The body of the [try] (lines 83-100). *)
Definition storage_size_query (table_name method : string) : M Q :=
  connect;;
  match select_query method with
  | None => raise (UnboundLocalError "query")
  | Some query =>
      result ← execute_sum query;
      let size_bytes :=
        match result with
        | Some n => if n =? 0 then 0 else n
        | None => 0
        end in
      mret (round2 (inject_Z (Z.of_nat size_bytes) / 1024))
  end.

Definition get_exact_storage_size (table_name method : string) : M Q :=
  try_except_Error (storage_size_query table_name method) (mret 0%Q).

(** *** [generate_dummy_data] *)

Definition generate_dummy_data (n : nat) : M (list Row) :=
  collect (seq 0 n) (fun _ =>
    name ← fake_call; email ← fake_call; notes ← fake_call;
    mret (name, email, notes)).

(** Writes [rows] to a table in chunks of [CHUNK_SIZE]. *)
Definition insert_chunks {R : Type} (get : World -> option (list R))
    (set : option (list R) -> World -> World) (rows : list R) : M unit :=
  for_each (range_step (length rows) CHUNK_SIZE) (fun i =>
    executemany get set (slice i CHUNK_SIZE rows)).

Definition elapsed_ms (start : Q) : M Q :=
  now ← time_time; mret ((now - start) * 1000)%Q.

Definition log_call (name : string) (data : list Row) : M unit :=
  modify (fun w => set_calls (calls w ++ [(name, data)]) w).

(** *** Scenario A: [run_baseline] *)

(** [SELECT *] also returns the id column. *)
Definition with_ids {R : Type} (t : list R) : list (nat * R) :=
  imap (fun i row => (S i, row)) t.

Definition run_baseline (data : list Row) : M (Q * Q) :=
  log_call "run_baseline" data;;
  connect;;
  start ← time_time;
  insert_chunks patient_baseline set_patient_baseline data;;
  commit;;
  write_ms ← elapsed_ms start;
  start ← time_time;
  fetched ← select_all (fun w => with_ids <$> patient_baseline w);
  read_ms ← elapsed_ms start;
  mret (write_ms, read_ms).

(** *** Scenario B: [run_aes] *)

(** The body of the inner write loop (lines 152-155, and 209-211). *)
Definition encrypt_field (key : bytes) (text : str) : M bytes :=
  cipher ← AES_new key None;
  plaintext ← encode text;
  let '(ciphertext, tag) := encrypt_and_digest cipher plaintext in
  mret (nonce cipher ++ tag ++ ciphertext).

(** The body of the inner read loop (lines 173-179, and 238-243). *)
Definition decrypt_cell (key : bytes) (cell : bytes) : M bytes :=
  let nonce := take 16 cell in
  let tag := take 16 (drop 16 cell) in
  let ciphertext := drop 32 cell in
  cipher ← AES_new key (Some nonce);
  decrypt_and_verify cipher ciphertext tag.

Definition aes_encrypt_rows (static_key : bytes) (data : list Row)
    : M (list (list bytes)) :=
  collect data (fun row => collect (fields row) (encrypt_field static_key)).

(** Ghost: the loop takes up one more fetched row. *)
Definition log_row : M unit :=
  modify (fun w => set_rows_read (S (rows_read w)) w).

Definition aes_read_loop (static_key : bytes) (fetched : list (list bytes))
    : M unit :=
  for_each fetched (fun row =>
    log_row;;
    try_except
      (for_each row (fun cell => decrypt_cell static_key cell;; mret tt))
      (mret tt)).

Definition run_aes (data : list Row) : M (Q * Q) :=
  log_call "run_aes" data;;
  connect;;
  static_key ← get_random_bytes 32;
  start ← time_time;
  encrypted_rows ← aes_encrypt_rows static_key data;
  insert_chunks patient_aes set_patient_aes encrypted_rows;;
  commit;;
  write_ms ← elapsed_ms start;
  start ← time_time;
  fetched ← select_all (fun w => fmap (M := list) (take 3) <$> patient_aes w);
  aes_read_loop static_key fetched;;
  read_ms ← elapsed_ms start;
  mret (write_ms, read_ms).

(** *** Scenario C: [run_hybrid] *)

Definition hybrid_encrypt_row (rsa_enc : RsaPub) (row : Row) : M (list bytes) :=
  row_key ← get_random_bytes 32;
  enc_fields ← collect (fields row) (encrypt_field row_key);
  enc_row_key ← PKCS1_OAEP_encrypt rsa_enc row_key;
  mret (enc_fields ++ [enc_row_key]).

(** [row[i]] *)
Definition index {A : Type} (row : list A) (i : nat) : M A :=
  match row !! i with
  | Some x => mret x
  | None => raise IndexError
  end.

(** The body of the [try] in the read loop: the three plaintexts. *)
Definition hybrid_decrypt_row (rsa_dec : RsaKey) (enc_key_blob : bytes)
    (row : list bytes) : M (list bytes) :=
  row_key ← PKCS1_OAEP_decrypt rsa_dec enc_key_blob;
  collect (seq 0 3) (fun i =>
    cell ← index row i;
    decrypt_cell row_key cell).

Definition hybrid_read_loop (rsa_dec : RsaKey) (fetched : list (list bytes))
    : M unit :=
  for_each fetched (fun row =>
    log_row;;
    enc_key_blob ← index row 3;
    try_except
      (hybrid_decrypt_row rsa_dec enc_key_blob row;; mret tt)
      (mret tt)).

Definition run_hybrid (data : list Row) : M (Q * Q) :=
  log_call "run_hybrid" data;;
  connect;;
  key_pair ← RSA_generate 2048;
  let rsa_enc := publickey key_pair in
  let rsa_dec := key_pair in
  start ← time_time;
  encrypted_rows ← collect data (hybrid_encrypt_row rsa_enc);
  insert_chunks patient_hybrid set_patient_hybrid encrypted_rows;;
  commit;;
  write_ms ← elapsed_ms start;
  start ← time_time;
  fetched ← select_all (fun w => fmap (M := list) (take 4) <$> patient_hybrid w);
  hybrid_read_loop rsa_dec fetched;;
  read_ms ← elapsed_ms start;
  mret (write_ms, read_ms).

(** *** [main] *)

Definition results_init : Results :=
  let empty : gmap string (list Q) := {[ "w" := []; "r" := []; "s" := [] ]} in
  {[ "Baseline" := empty; "AES" := empty; "Hybrid" := empty ]}.

(** [results[m][k].append(v)] *)
Definition results_append (results : Results) (m k : string) (v : Q)
    : M Results :=
  match results !! m with
  | None => raise (KeyError m)
  | Some series =>
      match series !! k with
      | None => raise (KeyError k)
      | Some values => mret (<[m := <[k := values ++ [v]]> series]> results)
      end
  end.

Definition truncate_tables : M unit :=
  connect;;
  truncate_table patient_baseline set_patient_baseline;;
  truncate_table patient_aes set_patient_aes;;
  truncate_table patient_hybrid set_patient_hybrid.

(** One turn of [for count in BATCH_SIZES] (lines 262-297). *)
Definition run_batch (results : Results) (count : nat) : M Results :=
  data ← generate_dummy_data count;
  '(w, r) ← run_baseline data;
  s ← get_exact_storage_size "patient_baseline" "Baseline";
  results ← results_append results "Baseline" "w" w;
  results ← results_append results "Baseline" "r" r;
  results ← results_append results "Baseline" "s" s;
  '(w, r) ← run_aes data;
  s ← get_exact_storage_size "patient_aes" "AES";
  results ← results_append results "AES-Only" "w" w;
  results ← results_append results "AES-Only" "r" r;
  results ← results_append results "AES-Only" "s" s;
  '(w, r) ← run_hybrid data;
  s ← get_exact_storage_size "patient_hybrid" "Hybrid";
  results ← results_append results "Hybrid" "w" w;
  results ← results_append results "Hybrid" "r" r;
  results ← results_append results "Hybrid" "s" s;
  truncate_tables;;
  mret results.

Fixpoint run_batches (results : Results) (sizes : list nat) : M Results :=
  match sizes with
  | [] => mret results
  | count :: rest => results ← run_batch results count; run_batches results rest
  end.

(** [count / (w/1000) if w > 0 else 0] (line 312) *)
Definition tps (count : nat) (w : Q) : M Q :=
  if negb (Qle_bool w 0) then
    seconds ← py_div w 1000;
    py_div (inject_Z (Z.of_nat count)) seconds
  else mret 0%Q.

(** [results[m][k][i]] *)
Definition results_get (results : Results) (m k : string) (i : nat) : M Q :=
  match results !! m with
  | None => raise (KeyError m)
  | Some series =>
      match series !! k with
      | None => raise (KeyError k)
      | Some values => index values i
      end
  end.

(** One line of the final table. *)
Record ReportRow : Type := mkReportRow {
  report_batch : nat;
  report_method : string;
  report_write_ms : Q;
  report_read_ms : Q;
  report_tps : Q;
  report_size_kb : Q
}.

Definition report (results : Results) : M (list ReportRow) :=
  lines ← collect (imap pair BATCH_SIZES) (fun '(i, count) =>
    collect ["Baseline"; "AES"; "Hybrid"] (fun m =>
      w ← results_get results m "w" i;
      r ← results_get results m "r" i;
      s ← results_get results m "s" i;
      rate ← tps count w;
      mret (mkReportRow count m w r rate s)));
  mret (concat lines).

(** [main] up to the printed table; the charts drawn after it are left
    out. *)
Definition main : M (list ReportRow) :=
  setup_database;;
  results ← run_batches results_init BATCH_SIZES;
  report results.

End Script.

#[global] Arguments random_at : simpl never.

(** ** A small instance of the primitives

    Not AES or RSA: a one-byte XOR pad, a 16-byte checksum tag and a
    length-prefixed padded wrap.  They satisfy the laws above, so the
    laws are consistent, and they make the script runnable. *)

Module Toy.

Definition xor_all (bs : bytes) : byte := foldr byte_xor x00 bs.

Definition pad (key nonce : bytes) : byte := xor_all (key ++ nonce).

Definition toy_encrypt (key nonce pt : bytes) : bytes :=
  byte_xor (pad key nonce) <$> pt.

Definition toy_mac (key nonce ct : bytes) : bytes :=
  byte_xor (pad key nonce) (xor_all ct) :: replicate 15 x00.

Definition toy_generate (bits : nat) (entropy : nat -> byte) (pos : nat)
    : bytes * nat :=
  (entropy <$> seq pos 4, pos + 4).

Definition toy_wrap (pub seed msg : bytes) : bytes :=
  byte_of_N (N.of_nat (length msg)) :: seed
    ++ (byte_xor (pad pub seed) <$> msg)
    ++ replicate (256 - 21 - length msg) x00.

Definition toy_unwrap (key blob : bytes) : option bytes :=
  match blob with
  | [] => None
  | len :: rest =>
      let n := N.to_nat (Byte.to_N len) in
      if (length blob =? 256) && (n <=? 214) then
        Some (byte_xor (pad key (take 20 rest)) <$> take n (drop 20 rest))
      else None
  end.

#[global] Instance crypto : Crypto := {
  gcm_encrypt := toy_encrypt;
  gcm_decrypt := toy_encrypt;
  gcm_mac := toy_mac;
  RsaKey := bytes;
  RsaPub := bytes;
  rsa_generate := toy_generate;
  publickey := fun key => key;
  oaep_encrypt := toy_wrap;
  oaep_decrypt := toy_unwrap
}.

(** The records of the specification's scenario, served one field per
    Faker call. *)
Definition texts : list string :=
  ["Alice"; "a@x.com"; "hi"; "Bob"; "b@x.com"; "yo"; "Cy"; "c@x.com"; "ok"].

Definition env : Env := {|
  entropy := fun i => byte_of_N (N.of_nat (37 * i + 11));
  clock := fun i => (inject_Z (Z.of_nat i) / 8)%Q;
  fake := fun i => str_of (nth (i mod 9) texts "");
  db_fault := fun _ => false
|}.

(** The same surroundings with a server that refuses every statement. *)
Definition env_down : Env := {|
  entropy := entropy env;
  clock := clock env;
  fake := fake env;
  db_fault := fun _ => true
|}.

(** The same surroundings with a clock that is set back by one second
    after its first reading. *)
Definition env_back : Env := {|
  entropy := entropy env;
  clock := fun i => if i =? 0 then 1%Q else 0%Q;
  fake := fake env;
  db_fault := db_fault env
|}.

Definition world0 : World := mkWorld 0 0 0 0 None None None [] 0.

(** The world after a successful [setup_database]: three empty tables. *)
Definition world_ready : World :=
  mkWorld 0 0 0 9 (Some []) (Some []) (Some []) [] 0.

Definition key32 : bytes := entropy env <$> seq 1000 32.

End Toy.

(** ** The encodings, written out

    What the write loops are meant to produce, stated directly: the
    blob of one field, and the row of one record under the envelope
    scheme when the random source stands at [pos]. *)

Definition field_blob `{Crypto} (key nonce pt : bytes) : bytes :=
  nonce ++ gcm_mac key nonce (gcm_encrypt key nonce pt)
        ++ gcm_encrypt key nonce pt.

Definition envelope_at `{Crypto} (E : Env) (pub : RsaPub) (pos : nat)
    (pts : list bytes) : list bytes :=
  let row_key := random_at E pos 32 in
  imap (fun j pt => field_blob row_key (random_at E (pos + 32 + 16 * j) 16) pt)
       pts
    ++ [oaep_encrypt pub (random_at E (pos + 32 + 16 * length pts) 20) row_key].

(** Does the [try] body of the AES read loop raise on this row? *)
Definition aes_row_fails `{Crypto} (E : Env) (key : bytes) (row : list bytes)
    (w : World) : bool :=
  match for_each row (fun cell => decrypt_cell E key cell;; mret tt) w with
  | (inl _, _) => true
  | (inr _, _) => false
  end.

Definition aes_skipped `{Crypto} (E : Env) (key : bytes)
    (fetched : list (list bytes)) (w : World) : nat :=
  length (filter (fun row => aes_row_fails E key row w = true) fetched).

(** The cell the small instance builds for the text "hi" from a fresh
    world, a row of three such cells, and a row whose first cell was cut
    down to 20 bytes. *)
Definition toy_cell : bytes :=
  field_blob Toy.key32 (random_at Toy.env 0 16) [x68; x69].

(** ** Properties of computations

    The vocabulary of the proofs below: what a computation leaves
    unchanged, what it can raise, and when it is sure to succeed. *)

(** A computation that reads the world without changing it. *)
Definition pure_m {A : Type} (m : M A) : Prop := forall w, snd (m w) = w.

(** A computation that leaves the trace of strategy calls alone. *)
Definition keeps_calls {A : Type} (m : M A) : Prop :=
  forall w, calls (snd (m w)) = calls w.

(** The trace of one batch, seen from a point where [j] of the calls
    [expected] have been made: it ends as a prefix of [expected], and as
    the whole of it when the batch returns. *)
Definition batch_trace {B : Type} (base expected : list (string * list Row))
    (j : nat) (m : M B) : Prop :=
  forall w, calls w = base ++ take j expected ->
    exists k, calls (snd (m w)) = base ++ take k expected /\
      (forall r w', m w = (inr r, w') -> k = length expected).

(** The exceptions a run can end with. *)
Definition run_error (e : PyExc) : Prop :=
  e = KeyError "AES-Only" \/ e = MySQLError \/ e = UnicodeEncodeError.

Definition raises_only {A : Type} (m : M A) : Prop :=
  forall w e w', m w = (inl e, w') -> run_error e.

Definition always_raises {A : Type} (m : M A) : Prop :=
  forall w, exists e w', m w = (inl e, w') /\ run_error e.

(** What the batch loop can rely on in [results]: the 'Baseline' entry
    with its three series is there, and no 'AES-Only' entry is. *)
Definition baseline_only (results : Results) : Prop :=
  results !! "AES-Only" = None /\
  exists series, results !! "Baseline" = Some series /\
    forall k, k ∈ ["w"; "r"; "s"] -> is_Some (series !! k).

(** The tables as [setup_database] leaves them and as the baseline and
    AES runs keep them: all three exist, and the hybrid one is empty. *)
Definition ready (w : World) : Prop :=
  is_Some (patient_baseline w) /\ is_Some (patient_aes w) /\
  patient_hybrid w = Some [].

Definition succeeds {A : Type} (R : A -> Prop) (m : M A) : Prop :=
  forall w, ready w -> exists a w', m w = (inr a, w') /\ R a /\ ready w'.

Definition ends_with {A : Type} (e : PyExc) (m : M A) : Prop :=
  forall w, ready w -> exists w', m w = (inl e, w') /\ ready w'.

Definition any {A : Type} (a : A) : Prop := True.

Definition encodable (row : Row) : Prop :=
  Forall (fun text => is_Some (utf8_encode text)) (fields row).

Definition encodings (row : Row) (pts : list bytes) : Prop :=
  Forall2 (fun text pt => utf8_encode text = Some pt) (fields row) pts.

(** What a computation can raise: nothing outside [P]. *)
Definition raises_within {A : Type} (P : PyExc -> Prop) (m : M A) : Prop :=
  forall w e w', m w = (inl e, w') -> P e.

(** One record, the rows the two write loops of the small instance build
    for it, and a world whose three tables hold the record and those
    rows. *)
Definition toy_data : list Row :=
  [(str_of "Alice", str_of "a@x.com", str_of "hi")].
Definition toy_aes_rows : list (list bytes) :=
  match fst (aes_encrypt_rows Toy.env Toy.key32 toy_data Toy.world0) with
  | inr rows => rows
  | inl _ => []
  end.
Definition toy_hybrid_rows : list (list bytes) :=
  match fst (collect toy_data
               (hybrid_encrypt_row (C := Toy.crypto) Toy.env Toy.key32)
               Toy.world0) with
  | inr rows => rows
  | inl _ => []
  end.
(** Three records and the rows the AES write loop of the small instance
    builds for them from a fresh world. *)
Definition toy_records : list Row :=
  [(str_of "Alice", str_of "a@x.com", str_of "hi");
   (str_of "Bob", str_of "b@x.com", str_of "yo");
   (str_of "Eve", str_of "e@x.com", str_of "")].
Definition toy_sealed_records : list (list bytes) :=
  match fst (aes_encrypt_rows Toy.env Toy.key32 toy_records Toy.world0) with
  | inr rows => rows
  | inl _ => []
  end.

Definition toy_world_full : World :=
  mkWorld 0 0 0 0 (Some toy_data) (Some toy_aes_rows) (Some toy_hybrid_rows) []
    0.

(** * Lemmas *)

(** ** Bytes *)

Lemma xorb_cancel_l (a b : bool) : xorb a (xorb a b) = b.
Proof. by destruct a, b. Qed.

Lemma byte_xor_cancel_l (a b : byte) : byte_xor a (byte_xor a b) = b.
Proof.
  unfold byte_xor. rewrite Byte.to_bits_of_bits.
  rewrite <- (Byte.of_bits_to_bits b) at 2.
  destruct (Byte.to_bits a) as [a0 [a1 [a2 [a3 [a4 [a5 [a6 a7]]]]]]].
  destruct (Byte.to_bits b) as [b0 [b1 [b2 [b3 [b4 [b5 [b6 b7]]]]]]].
  cbn [xor_bits]. by rewrite !xorb_cancel_l.
Qed.

Lemma byte_xor_comm (a b : byte) : byte_xor a b = byte_xor b a.
Proof.
  unfold byte_xor.
  destruct (Byte.to_bits a) as [a0 [a1 [a2 [a3 [a4 [a5 [a6 a7]]]]]]].
  destruct (Byte.to_bits b) as [b0 [b1 [b2 [b3 [b4 [b5 [b6 b7]]]]]]].
  cbn [xor_bits].
  by rewrite (xorb_comm a0), (xorb_comm a1), (xorb_comm a2), (xorb_comm a3),
    (xorb_comm a4), (xorb_comm a5), (xorb_comm a6), (xorb_comm a7).
Qed.

Lemma byte_xor_inj_l (a b c : byte) : byte_xor a b = byte_xor a c -> b = c.
Proof.
  intros H. rewrite <- (byte_xor_cancel_l a b), H. apply byte_xor_cancel_l.
Qed.

Lemma byte_xor_inj_r (a b c : byte) : byte_xor b a = byte_xor c a -> b = c.
Proof. rewrite !(byte_xor_comm _ a). apply byte_xor_inj_l. Qed.

Lemma byte_xor_zero_r (a : byte) : byte_xor a x00 = a.
Proof.
  unfold byte_xor. rewrite <- (Byte.of_bits_to_bits a) at 2.
  destruct (Byte.to_bits a) as [a0 [a1 [a2 [a3 [a4 [a5 [a6 a7]]]]]]].
  cbn. by rewrite !xorb_false_r.
Qed.

Lemma bit_mask_nonzero (j : nat) : j < 8 -> bit_mask j <> x00.
Proof. intros Hj. do 8 (destruct j as [|j]; [done|]). lia. Qed.

Lemma flip_byte_changes (b : byte) (j : nat) :
  j < 8 -> byte_xor b (bit_mask j) <> b.
Proof.
  intros Hj Heq. apply (bit_mask_nonzero j Hj).
  apply (byte_xor_inj_l b). by rewrite byte_xor_zero_r.
Qed.

Lemma flip_bit_length (i : nat) (blob : bytes) :
  length (flip_bit i blob) = length blob.
Proof.
  revert i. induction blob as [|b rest IH]; intros i; [done|].
  cbn [flip_bit]. destruct (i <? 8); cbn; [done|]. by rewrite IH.
Qed.

Lemma flip_bit_changes (i : nat) (blob : bytes) :
  i < 8 * length blob -> flip_bit i blob <> blob.
Proof.
  revert i. induction blob as [|b rest IH]; intros i Hi; [cbn in Hi; lia|].
  cbn [flip_bit]. destruct (Nat.ltb_spec i 8) as [Hlt|Hge].
  - intros [= Hb]. by apply (flip_byte_changes b i).
  - intros [= Hrest]. apply (IH (i - 8)); [cbn in Hi; lia|done].
Qed.

(** Flipping a bit beyond a prefix leaves the prefix alone. *)
Lemma flip_bit_app_r (i : nat) (pre post : bytes) :
  8 * length pre <= i ->
  flip_bit i (pre ++ post) = pre ++ flip_bit (i - 8 * length pre) post.
Proof.
  revert i. induction pre as [|b pre IH]; intros i Hi.
  - cbn. by rewrite Nat.sub_0_r.
  - cbn [length] in Hi. cbn [app flip_bit].
    destruct (Nat.ltb_spec i 8) as [Hlt|Hge]; [lia|].
    rewrite IH by lia.
    by replace (i - 8 - 8 * length pre) with (i - 8 * S (length pre)) by lia.
Qed.

(** Flipping a bit inside a prefix leaves the rest alone. *)
Lemma flip_bit_app_l (i : nat) (pre post : bytes) :
  i < 8 * length pre ->
  flip_bit i (pre ++ post) = flip_bit i pre ++ post.
Proof.
  revert i. induction pre as [|b pre IH]; intros i Hi; [cbn in Hi; lia|].
  cbn [app flip_bit]. destruct (Nat.ltb_spec i 8) as [Hlt|Hge]; [done|].
  cbn [app]. rewrite IH; [done|]. cbn [length] in Hi. lia.
Qed.

(** ** UTF-8 *)

Lemma utf8_char_nonempty (c : N) (bs : bytes) :
  utf8_char c = Some bs -> 1 <= length bs.
Proof.
  unfold utf8_char. repeat case_match; intros [= <-]; cbn; lia.
Qed.

Lemma utf8_encode_nonempty (s : str) (bs : bytes) :
  utf8_encode s = Some bs -> s <> [] -> 1 <= length bs.
Proof.
  destruct s as [|c rest]; [done|]. cbn. intros H _.
  destruct (utf8_char c) as [b|] eqn:Hc; [|done].
  destruct (utf8_encode rest) as [tl|]; [|done].
  injection H as <-. rewrite length_app.
  pose proof (utf8_char_nonempty c b Hc). lia.
Qed.

(** ** The monad *)

Lemma bind_inr {A B : Type} (m : M A) (f : A -> M B) w a w' :
  m w = (inr a, w') -> (m ≫= f) w = f a w'.
Proof. intros H. unfold mbind, M_bind. by rewrite H. Qed.

Lemma bind_inl {A B : Type} (m : M A) (f : A -> M B) w e w' :
  m w = (inl e, w') -> (m ≫= f) w = (inl e, w').
Proof. intros H. unfold mbind, M_bind. by rewrite H. Qed.

Lemma bind_inv {A B : Type} (m : M A) (f : A -> M B) w b w' :
  (m ≫= f) w = (inr b, w') ->
  exists a w1, m w = (inr a, w1) /\ f a w1 = (inr b, w').
Proof.
  unfold mbind, M_bind. destruct (m w) as [[e|a] w1]; [done|]. eauto.
Qed.

Lemma mret_eq {A : Type} (a : A) w : mret (M := M) a w = (inr a, w).
Proof. done. Qed.

Lemma collect_cons {A B : Type} (f : A -> M B) (x : A) (rest : list A) :
  collect (x :: rest) f = (y ← f x; ys ← collect rest f; mret (y :: ys)).
Proof. done. Qed.

Lemma for_each_cons {A : Type} (body : A -> M unit) (x : A) (rest : list A) :
  for_each (x :: rest) body = (body x;; for_each rest body).
Proof. done. Qed.

Lemma collect_length {A B : Type} (f : A -> M B) (xs : list A) w ys w' :
  collect xs f w = (inr ys, w') -> length ys = length xs.
Proof.
  revert w ys. induction xs as [|x rest IH]; intros w ys H.
  - by injection H as <- _.
  - rewrite collect_cons in H.
    destruct (bind_inv _ _ _ _ _ H) as (y & w1 & Hy & H'); clear H; rename H' into H.
    destruct (bind_inv _ _ _ _ _ H) as (tl & w2 & Htl & H'); clear H; rename H' into H.
    injection H as <- <-. cbn. f_equal. by eapply IH.
Qed.

(** Every element of the list a loop collected came out of its body. *)
Lemma collect_elem {A B : Type} (f : A -> M B) (xs : list A) w ys w' y :
  collect xs f w = (inr ys, w') -> y ∈ ys ->
  exists x w1 w2, x ∈ xs /\ f x w1 = (inr y, w2).
Proof.
  revert w ys. induction xs as [|x rest IH]; intros w ys H Hy.
  - injection H as <- _. by apply elem_of_nil in Hy.
  - rewrite collect_cons in H.
    destruct (bind_inv _ _ _ _ _ H) as (y0 & w1 & Hy0 & H'); clear H; rename H' into H.
    destruct (bind_inv _ _ _ _ _ H) as (tl & w2 & Htl & H'); clear H; rename H' into H.
    injection H as <- <-. apply elem_of_cons in Hy as [->|Hy].
    + exists x, w, w1. split; [left|done].
    + destruct (IH _ _ Htl Hy) as (x' & wa & wb & Hx' & Hf).
      exists x', wa, wb. split; [by right|done].
Qed.

(** ** One field: [encrypt_field] and [decrypt_cell] *)

Section Field.
Context {C : Crypto} (E : Env).

Lemma random_at_length (pos n : nat) : length (random_at E pos n) = n.
Proof. unfold random_at. by rewrite length_fmap, length_seq. Qed.

Lemma encrypt_field_eq (key : bytes) (text : str) (w : World) :
  encrypt_field E key text w =
  let w' := set_rng_pos (rng_pos w + 16) w in
  if aes_key_length_ok (length key) then
    match utf8_encode text with
    | Some pt => (inr (field_blob key (random_at E (rng_pos w) 16) pt), w')
    | None => (inl UnicodeEncodeError, w')
    end
  else (inl (ValueError "Incorrect AES key length"), w').
Proof.
  unfold encrypt_field, AES_new, encode, get_random_bytes, mbind, M_bind.
  rewrite random_at_length. cbn.
  destruct (aes_key_length_ok (length key)); [|done]. cbn.
  by destruct (utf8_encode text).
Qed.

Lemma decrypt_cell_eq (key cell : bytes) (w : World) :
  decrypt_cell E key cell w =
  let nonce := take 16 cell in
  let tag := take 16 (drop 16 cell) in
  let ct := drop 32 cell in
  if length nonce =? 0 then (inl (ValueError "Nonce cannot be empty"), w)
  else if aes_key_length_ok (length key) then
    if bool_decide (tag = gcm_mac key nonce ct)
    then (inr (gcm_decrypt key nonce ct), w)
    else (inl (ValueError "MAC check failed"), w)
  else (inl (ValueError "Incorrect AES key length"), w).
Proof.
  unfold decrypt_cell, AES_new, decrypt_and_verify, mbind, M_bind. cbn.
  destruct (length (take 16 cell) =? 0); [done|].
  destruct (aes_key_length_ok (length key)); [|done]. cbn.
  by case_bool_decide.
Qed.

(** The three slices of a well-formed blob. *)
Lemma blob_slices (nonce tag ct : bytes) :
  length nonce = 16 -> length tag = 16 ->
  take 16 (nonce ++ tag ++ ct) = nonce /\
  take 16 (drop 16 (nonce ++ tag ++ ct)) = tag /\
  drop 32 (nonce ++ tag ++ ct) = ct.
Proof.
  intros Hn Ht. split_and!.
  - by rewrite take_app_length'.
  - by rewrite drop_app_length', take_app_length'.
  - replace 32 with (16 + 16) by done.
    by rewrite <- drop_drop, drop_app_length', drop_app_length'.
Qed.

Lemma decrypt_cell_blob (key nonce tag ct : bytes) (w : World) :
  length nonce = 16 -> length tag = 16 ->
  aes_key_length_ok (length key) = true ->
  decrypt_cell E key (nonce ++ tag ++ ct) w =
  if bool_decide (tag = gcm_mac key nonce ct)
  then (inr (gcm_decrypt key nonce ct), w)
  else (inl (ValueError "MAC check failed"), w).
Proof.
  intros Hn Ht Hk. rewrite decrypt_cell_eq. cbv zeta.
  destruct (blob_slices nonce tag ct Hn Ht) as (-> & -> & ->).
  by rewrite Hn, Hk.
Qed.

End Field.

(** ** The small instance satisfies the laws *)

Lemma toy_decrypt_encrypt : @gcm_decrypt_encrypt Toy.crypto.
Proof.
  intros key nonce pt. cbn. unfold Toy.toy_encrypt.
  rewrite <- list_fmap_compose. rewrite <- (list_fmap_id pt) at 2.
  apply list_fmap_ext. intros _ b _. cbn. apply byte_xor_cancel_l.
Qed.

Lemma toy_encrypt_length : @gcm_encrypt_length Toy.crypto.
Proof. intros key nonce pt. cbn. unfold Toy.toy_encrypt. apply length_fmap. Qed.

Lemma toy_mac_length : @gcm_mac_length Toy.crypto.
Proof. done. Qed.

Lemma xor_all_flip (i : nat) (ct : bytes) :
  i < 8 * length ct -> Toy.xor_all (flip_bit i ct) <> Toy.xor_all ct.
Proof.
  revert i. induction ct as [|b rest IH]; intros i Hi; [cbn in Hi; lia|].
  cbn [flip_bit]. destruct (Nat.ltb_spec i 8) as [Hlt|Hge]; cbn.
  - intros H%byte_xor_inj_r. by apply (flip_byte_changes b i).
  - intros H%byte_xor_inj_l. apply (IH (i - 8)); [cbn in Hi; lia|done].
Qed.

Lemma toy_mac_bit_sensitive : @gcm_mac_bit_sensitive Toy.crypto.
Proof.
  intros key nonce ct i Hi. cbn. unfold Toy.toy_mac.
  intros [= H%byte_xor_inj_l]. by apply (xor_all_flip i ct).
Qed.

Lemma byte_of_N_to_N (n : N) : (n < 256)%N -> Byte.to_N (byte_of_N n) = n.
Proof.
  intros Hn. unfold byte_of_N. rewrite N.mod_small by done.
  destruct (Byte.of_N n) as [b|] eqn:Hb.
  - by apply Byte.to_of_N.
  - apply Byte.of_N_None_iff in Hb. lia.
Qed.

Lemma toy_wrap_length (pub seed msg : bytes) :
  length seed = 20 -> length msg <= 214 ->
  length (Toy.toy_wrap pub seed msg) = 256.
Proof.
  intros Hs Hm. unfold Toy.toy_wrap. cbn [length].
  rewrite !length_app, length_fmap, length_replicate. lia.
Qed.

Lemma toy_unwrap_wrap (key seed msg : bytes) :
  length seed = 20 -> length msg <= 214 ->
  Toy.toy_unwrap key (Toy.toy_wrap key seed msg) = Some msg.
Proof.
  intros Hs Hm. pose proof (toy_wrap_length key seed msg Hs Hm) as Hlen.
  unfold Toy.toy_wrap in *.
  set (mask := byte_xor (Toy.pad key seed)) in *.
  set (filler := replicate _ x00) in *.
  unfold Toy.toy_unwrap. rewrite Hlen, Nat.eqb_refl.
  rewrite byte_of_N_to_N by lia. rewrite Nat2N.id.
  destruct (Nat.leb_spec (length msg) 214) as [_|?]; [|lia]. cbn [andb].
  rewrite take_app_length' by done. rewrite drop_app_length' by done.
  rewrite take_app_length' by (by rewrite length_fmap).
  fold mask. rewrite <- list_fmap_compose. rewrite <- (list_fmap_id msg) at 2.
  f_equal. apply list_fmap_ext. intros _ b _. apply byte_xor_cancel_l.
Qed.

Lemma toy_oaep_decrypt_encrypt : @oaep_decrypt_encrypt Toy.crypto.
Proof. intros kp seed msg. apply toy_unwrap_wrap. Qed.

Lemma toy_oaep_encrypt_length : @oaep_encrypt_length Toy.crypto.
Proof. intros pub seed msg. apply toy_wrap_length. Qed.

(** ** One row: the loops over a record's fields *)

Section Rows.
Context {C : Crypto} (E : Env).

Lemma key_length_32 (key : bytes) :
  length key = 32 -> aes_key_length_ok (length key) = true.
Proof. by intros ->. Qed.

Lemma set_rng_pos_twice (a b : nat) (w : World) :
  set_rng_pos a (set_rng_pos b w) = set_rng_pos a w.
Proof. done. Qed.

Lemma rng_pos_set (a : nat) (w : World) : rng_pos (set_rng_pos a w) = a.
Proof. done. Qed.

(** The blobs of a list of texts, the random source standing at [pos]. *)
Lemma collect_encrypt_field (key : bytes) (texts : list str)
    (pts : list bytes) (w : World) :
  aes_key_length_ok (length key) = true ->
  Forall2 (fun text pt => utf8_encode text = Some pt) texts pts ->
  collect texts (encrypt_field E key) w =
  (inr (imap (fun j pt =>
          field_blob key (random_at E (rng_pos w + 16 * j) 16) pt) pts),
   set_rng_pos (rng_pos w + 16 * length texts) w).
Proof.
  intros Hk Hpts. revert w.
  induction Hpts as [|text pt texts pts Hpt _ IH]; intros w.
  - cbn. rewrite Nat.add_0_r. by destruct w.
  - rewrite collect_cons.
    erewrite bind_inr; [|by rewrite encrypt_field_eq, Hk, Hpt].
    erewrite bind_inr; [|apply IH].
    rewrite mret_eq, set_rng_pos_twice. cbn [imap rng_pos set_rng_pos length].
    rewrite Nat.mul_0_r, Nat.add_0_r. do 2 f_equal.
    + f_equal. apply imap_ext. intros j p _. unfold compose.
      by replace (rng_pos w + 16 + 16 * j) with (rng_pos w + 16 * S j) by lia.
    + by replace (rng_pos w + 16 + 16 * length texts)
        with (rng_pos w + 16 * S (length texts)) by lia.
Qed.

Lemma hybrid_encrypt_row_eq (pub : RsaPub) (row : Row) (pts : list bytes)
    (w : World) :
  Forall2 (fun text pt => utf8_encode text = Some pt) (fields row) pts ->
  hybrid_encrypt_row E pub row w =
  (inr (envelope_at E pub (rng_pos w) pts),
   set_rng_pos (rng_pos w + 100) w).
Proof.
  intros Hpts. unfold hybrid_encrypt_row.
  erewrite bind_inr; [|done].
  erewrite bind_inr;
    [|by apply collect_encrypt_field;
         [apply key_length_32, random_at_length|]].
  unfold PKCS1_OAEP_encrypt. rewrite random_at_length. cbn [Nat.ltb Nat.leb].
  unfold envelope_at.
  assert (length pts = 3) as Hlen.
  { rewrite <- (Forall2_length _ _ _ Hpts). by destruct row as [[? ?] ?]. }
  assert (length (fields row) = 3) as -> by (by destruct row as [[? ?] ?]).
  rewrite Hlen.
  erewrite bind_inr; [|by erewrite bind_inr].
  rewrite mret_eq, !set_rng_pos_twice, !rng_pos_set.
  by replace (rng_pos w + 32 + 16 * 3 + 20) with (rng_pos w + 100) by lia.
Qed.

Lemma decrypt_field_blob (key nonce pt : bytes) (w : World) :
  gcm_decrypt_encrypt -> gcm_mac_length ->
  aes_key_length_ok (length key) = true -> length nonce = 16 ->
  decrypt_cell E key (field_blob key nonce pt) w = (inr pt, w).
Proof.
  intros Hdec Hmac Hk Hn. unfold field_blob.
  rewrite decrypt_cell_blob by done.
  by rewrite bool_decide_eq_true_2, Hdec.
Qed.

Lemma hybrid_decrypt_row_eq (kp : RsaKey) (pos : nat) (p0 p1 p2 : bytes)
    (w : World) :
  gcm_decrypt_encrypt -> gcm_mac_length ->
  oaep_decrypt_encrypt -> oaep_encrypt_length ->
  let enc_row := envelope_at E (publickey kp) pos [p0; p1; p2] in
  exists blob, enc_row !! 3 = Some blob /\
    hybrid_decrypt_row E kp blob enc_row w = (inr [p0; p1; p2], w).
Proof.
  intros Hdec Hmac Hunwrap Hwrap. cbv zeta. eexists. split; [done|].
  unfold hybrid_decrypt_row, PKCS1_OAEP_decrypt.
  rewrite Hwrap, Hunwrap by (rewrite random_at_length; lia).
  cbn [negb Nat.eqb]. erewrite bind_inr; [|done].
  assert (aes_key_length_ok (length (random_at E pos 32)) = true) as Hk
    by apply key_length_32, random_at_length.
  cbn [seq]. rewrite !collect_cons.
  erewrite bind_inr;
    [|erewrite bind_inr; [|done];
      by apply decrypt_field_blob; [..|apply random_at_length]].
  erewrite bind_inr; [|].
  2:{ erewrite bind_inr;
        [|erewrite bind_inr; [|done];
          by apply decrypt_field_blob; [..|apply random_at_length]].
      erewrite bind_inr; [done|].
      erewrite bind_inr;
        [|erewrite bind_inr; [|done];
          by apply decrypt_field_blob; [..|apply random_at_length]].
      done. }
  done.
Qed.

End Rows.

(** ** A record has three fields *)

Lemma fields_encodable_length (row : Row) (pts : list bytes) :
  Forall2 (fun text pt => utf8_encode text = Some pt) (fields row) pts ->
  exists p0 p1 p2, pts = [p0; p1; p2].
Proof.
  destruct row as [[name email] notes]. cbn. intros H.
  apply Forall2_cons_inv_l in H as (p0 & l0 & _ & H & ->).
  apply Forall2_cons_inv_l in H as (p1 & l1 & _ & H & ->).
  apply Forall2_cons_inv_l in H as (p2 & l2 & _ & H & ->).
  apply Forall2_nil_inv_l in H as ->. eauto.
Qed.

(** ** What the write loop returns *)

Lemma encrypt_field_inv `{C : Crypto} (E : Env) (key : bytes) (text : str)
    (w : World) (cell : bytes) (w' : World) :
  encrypt_field E key text w = (inr cell, w') ->
  exists pt, utf8_encode text = Some pt /\
    aes_key_length_ok (length key) = true /\
    cell = field_blob key (random_at E (rng_pos w) 16) pt.
Proof.
  rewrite encrypt_field_eq. cbv zeta.
  destruct (aes_key_length_ok (length key)); [|done].
  destruct (utf8_encode text) as [pt|]; [|done].
  intros [= <- _]. eauto.
Qed.

Lemma aes_encrypt_rows_shape `{C : Crypto} (E : Env) (key : bytes)
    (data : list Row) (w : World) (rows : list (list bytes)) (w' : World) :
  aes_encrypt_rows E key data w = (inr rows, w') ->
  length rows = length data /\ Forall (fun row => length row = 3) rows.
Proof.
  unfold aes_encrypt_rows. intros H. split; [by eapply collect_length|].
  apply Forall_forall. intros row Hrow.
  destruct (collect_elem _ _ _ _ _ _ H Hrow) as (r & w1 & w2 & _ & Hr).
  apply collect_length in Hr. by destruct r as [[? ?] ?].
Qed.

Lemma collect_encrypt_field_inv `{C : Crypto} (E : Env) (key : bytes)
    (texts : list str) (w : World) (cells : list bytes) (w' : World) :
  collect texts (encrypt_field E key) w = (inr cells, w') ->
  exists pts,
    Forall2 (fun text pt => utf8_encode text = Some pt) texts pts /\
    (texts <> [] -> aes_key_length_ok (length key) = true).
Proof.
  revert w cells w'. induction texts as [|text rest IH]; intros w cells w' H.
  - exists []. split; [constructor|done].
  - rewrite collect_cons in H.
    destruct (bind_inv _ _ _ _ _ H) as (cell & w1 & Hcell & H1).
    destruct (bind_inv _ _ _ _ _ H1) as (tl & w2 & Htl & _).
    destruct (encrypt_field_inv E key text w cell w1 Hcell)
      as (pt & Hpt & Hk & _).
    destruct (IH _ _ _ Htl) as (pts & Hpts & _).
    exists (pt :: pts). split; [by constructor|done].
Qed.

Lemma field_blob_at `{C : Crypto} (E : Env) (key pt : bytes) (a b : nat) :
  a = b ->
  field_blob key (random_at E a 16) pt = field_blob key (random_at E b 16) pt.
Proof. by intros ->. Qed.

(** The rows the AES write loop returns, cell by cell. *)
Lemma aes_encrypt_rows_cells `{C : Crypto} (E : Env) (key : bytes)
    (data : list Row) (w : World) (rows : list (list bytes)) (w' : World) :
  aes_encrypt_rows E key data w = (inr rows, w') ->
  exists ptss,
    Forall2 encodings data ptss /\
    rows = imap (fun i pts =>
             imap (fun j pt =>
               field_blob key
                 (random_at E (rng_pos w + 48 * i + 16 * j) 16) pt) pts) ptss.
Proof.
  unfold aes_encrypt_rows. revert w rows w'.
  induction data as [|row rest IH]; intros w rows w' H.
  - injection H as <- _. by exists [].
  - rewrite collect_cons in H.
    destruct (bind_inv _ _ _ _ _ H) as (cells & w1 & Hcells & H1).
    destruct (bind_inv _ _ _ _ _ H1) as (tl & w2 & Htl & H2).
    injection H2 as <- _.
    destruct (collect_encrypt_field_inv E key (fields row) w cells w1 Hcells)
      as (pts & Hpts & Hk).
    assert (length (fields row) = 3) as Hthree by (by destruct row as [[? ?] ?]).
    assert (aes_key_length_ok (length key) = true) as Hkey.
    { apply Hk. intros Hnil. by rewrite Hnil in Hthree. }
    rewrite (collect_encrypt_field E key (fields row) pts w Hkey Hpts)
      in Hcells.
    injection Hcells as <- <-.
    destruct (IH _ _ _ Htl) as (ptss & Hptss & ->).
    exists (pts :: ptss). split; [by constructor|].
    cbn [imap]. f_equal.
    + apply imap_ext. intros j pt _. apply field_blob_at. lia.
    + apply imap_ext. intros i pts' _. unfold compose.
      apply imap_ext. intros j pt _. apply field_blob_at.
      rewrite rng_pos_set. lia.
Qed.

Lemma length_concat_const {A : Type} (n : nat) (ls : list (list A)) :
  Forall (fun l => length l = n) ls -> length (concat ls) = length ls * n.
Proof.
  induction 1 as [|l ls Hl _ IH]; [done|].
  cbn. rewrite length_app, IH, Hl. lia.
Qed.

(** ** The read loops run to their end *)

Create HintDb pure_m.

Lemma pure_mret {A : Type} (a : A) : pure_m (mret a).
Proof. done. Qed.

Lemma pure_raise {A : Type} (e : PyExc) : pure_m (raise (A := A) e).
Proof. done. Qed.

Lemma pure_bind {A B : Type} (m : M A) (f : A -> M B) :
  pure_m m -> (forall a, pure_m (f a)) -> pure_m (m ≫= f).
Proof.
  intros Hm Hf w. unfold mbind, M_bind. specialize (Hm w).
  destruct (m w) as [[e|a] w1]; cbn in Hm; subst w1; [done|]. apply Hf.
Qed.

Lemma pure_for_each {A : Type} (xs : list A) (body : A -> M unit) :
  (forall x, pure_m (body x)) -> pure_m (for_each xs body).
Proof.
  intros Hbody. induction xs as [|x rest IH]; [done|].
  rewrite for_each_cons. by apply pure_bind.
Qed.

Lemma pure_collect {A B : Type} (xs : list A) (f : A -> M B) :
  (forall x, pure_m (f x)) -> pure_m (collect xs f).
Proof.
  intros Hf. induction xs as [|x rest IH]; [done|].
  rewrite collect_cons. apply pure_bind; [done|]. intros y.
  apply pure_bind; [done|]. intros ys. apply pure_mret.
Qed.

Lemma pure_index {A : Type} (row : list A) (i : nat) : pure_m (index row i).
Proof. unfold index. by destruct (row !! i). Qed.

Lemma pure_decrypt_cell `{C : Crypto} (E : Env) (key cell : bytes) :
  pure_m (decrypt_cell E key cell).
Proof. intros w. rewrite decrypt_cell_eq. cbv zeta. by repeat case_match. Qed.

Lemma pure_PKCS1_OAEP_decrypt `{C : Crypto} (key : RsaKey) (blob : bytes) :
  pure_m (PKCS1_OAEP_decrypt key blob).
Proof. intros w. unfold PKCS1_OAEP_decrypt. by repeat case_match. Qed.

#[global] Hint Resolve pure_mret pure_raise pure_bind pure_for_each
  pure_collect pure_index pure_decrypt_cell pure_PKCS1_OAEP_decrypt : pure_m.

(** A [try] around a world-preserving body, with [continue] as its
    handler, always falls through, whatever the body raised. *)
Lemma try_continue (body : M unit) (w : World) :
  pure_m body -> try_except body (mret tt) w = (inr tt, w).
Proof.
  intros Hbody. unfold try_except. specialize (Hbody w).
  destruct (body w) as [[e|[]] w1]; cbn in Hbody; by subst w1.
Qed.

Lemma for_each_total {A : Type} (xs : list A) (body : A -> M unit) (w : World) :
  (forall x, x ∈ xs -> body x w = (inr tt, w)) ->
  for_each xs body w = (inr tt, w).
Proof.
  induction xs as [|x rest IH]; intros Hbody; [done|].
  rewrite for_each_cons. erewrite bind_inr; [|apply Hbody; by left].
  apply IH. intros y Hy. apply Hbody. by right.
Qed.

(** A loop whose every turn returns and counts one row returns, having
    counted them all. *)
Lemma for_each_counted {A : Type} (xs : list A) (body : A -> M unit)
    (w : World) :
  (forall x w1, x ∈ xs ->
     body x w1 = (inr tt, set_rows_read (S (rows_read w1)) w1)) ->
  for_each xs body w
  = (inr tt, set_rows_read (rows_read w + length xs) w).
Proof.
  revert w. induction xs as [|x rest IH]; intros w Hbody.
  - cbn. rewrite Nat.add_0_r. by destruct w.
  - rewrite for_each_cons. erewrite bind_inr; [|apply Hbody; by left].
    rewrite IH by (intros y w1 Hy; apply Hbody; by right).
    destruct w. unfold set_rows_read. cbn. do 2 f_equal. lia.
Qed.

Lemma aes_read_loop_total `{C : Crypto} (E : Env) (static_key : bytes)
    (fetched : list (list bytes)) (w : World) :
  aes_read_loop E static_key fetched w
  = (inr tt, set_rows_read (rows_read w + length fetched) w).
Proof.
  apply for_each_counted. intros row w1 _.
  erewrite bind_inr; [|reflexivity].
  apply try_continue. auto 10 with pure_m.
Qed.


(** ** The envelope write loop *)

Lemma collect_hybrid_encrypt_row `{C : Crypto} (E : Env) (pub : RsaPub)
    (data : list Row) (ptss : list (list bytes)) (w : World) :
  Forall2 encodings data ptss ->
  collect data (hybrid_encrypt_row E pub) w =
  (inr (imap (fun i pts => envelope_at E pub (rng_pos w + 100 * i) pts) ptss),
   set_rng_pos (rng_pos w + 100 * length data) w).
Proof.
  intros Hdata. revert w.
  induction Hdata as [|row pts data ptss Hrow _ IH]; intros w.
  - cbn. rewrite Nat.add_0_r. by destruct w.
  - rewrite collect_cons.
    erewrite bind_inr; [|by apply hybrid_encrypt_row_eq].
    erewrite bind_inr; [|apply IH].
    rewrite mret_eq, set_rng_pos_twice, rng_pos_set. cbn [imap length].
    rewrite Nat.mul_0_r, Nat.add_0_r.
    replace (rng_pos w + 100 + 100 * length data)
      with (rng_pos w + 100 * S (length data)) by lia.
    do 3 f_equal. apply imap_ext. intros i p _. unfold compose.
    by replace (rng_pos w + 100 + 100 * i) with (rng_pos w + 100 * S i) by lia.
Qed.

(** ** The trace of strategy calls *)

Lemma keeps_mret {A : Type} (a : A) : keeps_calls (mret a).
Proof. done. Qed.

Lemma keeps_raise {A : Type} (e : PyExc) : keeps_calls (raise (A := A) e).
Proof. done. Qed.

Lemma keeps_gets {A : Type} (f : World -> A) : keeps_calls (gets f).
Proof. done. Qed.

Lemma keeps_modify (f : World -> World) :
  (forall w, calls (f w) = calls w) -> keeps_calls (modify f).
Proof. intros Hf w. apply Hf. Qed.

Lemma keeps_bind {A B : Type} (m : M A) (f : A -> M B) :
  keeps_calls m -> (forall a, keeps_calls (f a)) -> keeps_calls (m ≫= f).
Proof.
  intros Hm Hf w. unfold mbind, M_bind. specialize (Hm w).
  destruct (m w) as [[e|a] w1]; cbn in *; [done|]. by rewrite Hf.
Qed.

Lemma keeps_for_each {A : Type} (xs : list A) (body : A -> M unit) :
  (forall x, keeps_calls (body x)) -> keeps_calls (for_each xs body).
Proof.
  intros Hbody. induction xs as [|x rest IH]; [done|].
  rewrite for_each_cons. by apply keeps_bind.
Qed.

Lemma keeps_collect {A B : Type} (xs : list A) (f : A -> M B) :
  (forall x, keeps_calls (f x)) -> keeps_calls (collect xs f).
Proof.
  intros Hf. induction xs as [|x rest IH]; [done|].
  rewrite collect_cons. apply keeps_bind; [done|]. intros y.
  apply keeps_bind; [done|]. intros ys. apply keeps_mret.
Qed.

Lemma keeps_try_except {A : Type} (body handler : M A) :
  keeps_calls body -> keeps_calls handler ->
  keeps_calls (try_except body handler).
Proof.
  intros Hb Hh w. unfold try_except. specialize (Hb w).
  destruct (body w) as [[e|a] w1]; cbn in *; [|done]. by rewrite Hh.
Qed.

Lemma keeps_try_except_Error {A : Type} (body handler : M A) :
  keeps_calls body -> keeps_calls handler ->
  keeps_calls (try_except_Error body handler).
Proof.
  intros Hb Hh w. unfold try_except_Error. specialize (Hb w).
  destruct (body w) as [[[]|a] w1]; cbn in *; try done. by rewrite Hh.
Qed.

Lemma keeps_pure {A : Type} (m : M A) : pure_m m -> keeps_calls m.
Proof. intros Hm w. by rewrite Hm. Qed.

Section KeepsCalls.
Context {C : Crypto} (E : Env).

Lemma keeps_db_step : keeps_calls (db_step E).
Proof. intros w. unfold db_step. by destruct (db_fault E (db_ops w)). Qed.

Lemma keeps_time_time : keeps_calls (time_time E).
Proof. done. Qed.

Lemma keeps_fake_call : keeps_calls (fake_call E).
Proof. done. Qed.

Lemma keeps_get_random_bytes (n : nat) : keeps_calls (get_random_bytes E n).
Proof. done. Qed.

Lemma keeps_RSA_generate (bits : nat) : keeps_calls (RSA_generate E bits).
Proof.
  intros w. unfold RSA_generate.
  by destruct (rsa_generate bits (entropy E) (rng_pos w)).
Qed.

End KeepsCalls.

Create HintDb keeps_calls.

#[global] Hint Resolve keeps_mret keeps_raise keeps_gets keeps_bind
  keeps_for_each keeps_collect keeps_try_except keeps_try_except_Error
  keeps_db_step keeps_time_time keeps_fake_call keeps_get_random_bytes
  keeps_RSA_generate : keeps_calls.

#[global] Hint Extern 1 (keeps_calls (modify _)) =>
  apply keeps_modify; reflexivity : keeps_calls.
#[global] Hint Extern 2 (keeps_calls (decrypt_cell _ _ _)) =>
  apply keeps_pure, pure_decrypt_cell : keeps_calls.
#[global] Hint Extern 2 (keeps_calls (index _ _)) =>
  apply keeps_pure, pure_index : keeps_calls.
#[global] Hint Extern 2 (keeps_calls (PKCS1_OAEP_decrypt _ _)) =>
  apply keeps_pure, pure_PKCS1_OAEP_decrypt : keeps_calls.
#[global] Hint Extern 4 (keeps_calls (match ?x with _ => _ end)) =>
  destruct x : keeps_calls.
#[global] Hint Unfold connect commit create_database drop_table_if_exists
  create_table truncate_table executemany select_all execute_sum
  insert_chunks elapsed_ms AES_new encode encrypt_field aes_encrypt_rows
  aes_read_loop PKCS1_OAEP_encrypt hybrid_encrypt_row hybrid_decrypt_row
  hybrid_read_loop log_row generate_dummy_data storage_size_query
  get_exact_storage_size results_append truncate_tables : keeps_calls.

Ltac keeps := autounfold with keeps_calls; auto 30 with keeps_calls.

Section BatchCalls.
Context {C : Crypto} (E : Env).

Lemma keeps_generate_dummy_data n : keeps_calls (generate_dummy_data E n).
Proof. keeps. Qed.

Lemma keeps_get_exact_storage_size t m :
  keeps_calls (get_exact_storage_size E t m).
Proof. keeps. Qed.

Lemma keeps_results_append r m k v : keeps_calls (results_append r m k v).
Proof. keeps. Qed.

Lemma keeps_truncate_tables : keeps_calls (truncate_tables E).
Proof. keeps. Qed.

Lemma after_log_call {A : Type} (name : string) (data : list Row)
    (rest : M A) (w : World) :
  keeps_calls rest ->
  calls (snd ((log_call name data;; rest) w)) = calls w ++ [(name, data)].
Proof. intros Hrest. unfold mbind, M_bind, log_call, modify. by rewrite Hrest. Qed.

Lemma run_baseline_calls (data : list Row) (w : World) :
  calls (snd (run_baseline E data w)) = calls w ++ [("run_baseline", data)].
Proof. unfold run_baseline. apply after_log_call. keeps. Qed.

Lemma run_aes_calls (data : list Row) (w : World) :
  calls (snd (run_aes E data w)) = calls w ++ [("run_aes", data)].
Proof. unfold run_aes. apply after_log_call. keeps. Qed.

Lemma run_hybrid_calls (data : list Row) (w : World) :
  calls (snd (run_hybrid E data w)) = calls w ++ [("run_hybrid", data)].
Proof. unfold run_hybrid. apply after_log_call. keeps. Qed.

Lemma generate_dummy_data_total (n : nat) (w : World) :
  exists data w1,
    generate_dummy_data E n w = (inr data, w1) /\ length data = n.
Proof.
  unfold generate_dummy_data.
  assert (forall xs w, exists data w1,
    collect xs (fun _ : nat =>
      name ← fake_call E; email ← fake_call E; notes ← fake_call E;
      mret (name, email, notes)) w = (inr data, w1)
    /\ length data = length xs) as Hgen.
  { induction xs as [|x rest IH]; intros w0; [by eexists _, _|].
    rewrite collect_cons.
    erewrite bind_inr; [|by repeat (erewrite bind_inr; [|done])].
    match goal with
    | |- context [mbind _ (collect rest _) ?w'] =>
        destruct (IH w') as (data & w1 & Hrun & Hlen)
    end.
    rewrite (bind_inr _ _ _ _ _ Hrun).
    eexists _, _. split; [done|]. cbn. by rewrite Hlen. }
  destruct (Hgen (seq 0 n) w) as (data & w1 & Hrun & Hlen).
  exists data, w1. by rewrite length_seq in Hlen.
Qed.

Lemma batch_trace_keep {A B : Type} base expected j (m : M A) (f : A -> M B) :
  keeps_calls m -> (forall a, batch_trace base expected j (f a)) ->
  batch_trace base expected j (m ≫= f).
Proof.
  intros Hm Hf w Hw. specialize (Hm w).
  destruct (m w) as [[e|a] w1] eqn:Hrun; cbn in Hm.
  - rewrite (bind_inl _ _ _ _ _ Hrun). exists j. cbn.
    split; [congruence|done].
  - rewrite (bind_inr _ _ _ _ _ Hrun). apply Hf. congruence.
Qed.

Lemma batch_trace_call {A B : Type} base expected j call (m : M A)
    (f : A -> M B) :
  (forall w, calls (snd (m w)) = calls w ++ [call]) ->
  expected !! j = Some call ->
  (forall a, batch_trace base expected (S j) (f a)) ->
  batch_trace base expected j (m ≫= f).
Proof.
  intros Hm Hj Hf w Hw. specialize (Hm w).
  assert (calls (snd (m w)) = base ++ take (S j) expected) as Hcalls.
  { rewrite Hm, Hw, (take_S_r _ _ _ Hj). by rewrite app_assoc. }
  destruct (m w) as [[e|a] w1] eqn:Hrun; cbn in Hcalls.
  - rewrite (bind_inl _ _ _ _ _ Hrun). by exists (S j).
  - rewrite (bind_inr _ _ _ _ _ Hrun). by apply Hf.
Qed.

Lemma batch_trace_done {B : Type} base expected (b : B) :
  batch_trace base expected (length expected) (mret b).
Proof. intros w Hw. by exists (length expected). Qed.

Lemma batch_trace_start {B : Type} base expected (m : M B) (w : World) :
  batch_trace base expected 0 m -> calls w = base ->
  exists k, calls (snd (m w)) = base ++ take k expected /\
    (forall r w', m w = (inr r, w') -> k = length expected).
Proof. intros Hm Hw. apply Hm. cbn. by rewrite app_nil_r. Qed.

End BatchCalls.

(** ** The exceptions of a run *)

Lemma only_mret {A : Type} (a : A) : raises_only (mret a).
Proof. by intros w e w'. Qed.

Lemma only_gets {A : Type} (f : World -> A) : raises_only (gets f).
Proof. by intros w e w'. Qed.

Lemma only_modify (f : World -> World) : raises_only (modify f).
Proof. by intros w e w'. Qed.

Lemma only_raise {A : Type} (e : PyExc) :
  run_error e -> raises_only (raise (A := A) e).
Proof. intros He w e' w' [= <- _]. exact He. Qed.

(** The bind rule, with what is known of the value passed on. *)
Lemma only_bind_val {A B : Type} (R : A -> Prop) (m : M A) (f : A -> M B) :
  raises_only m ->
  (forall w a w', m w = (inr a, w') -> R a) ->
  (forall a, R a -> raises_only (f a)) ->
  raises_only (m ≫= f).
Proof.
  intros Hm HR Hf w e w'. unfold mbind, M_bind.
  destruct (m w) as [[e1|a] w1] eqn:Hrun.
  - intros [= <- _]. by eapply Hm.
  - apply Hf. by eapply HR.
Qed.

Lemma only_bind {A B : Type} (m : M A) (f : A -> M B) :
  raises_only m -> (forall a, raises_only (f a)) -> raises_only (m ≫= f).
Proof. intros Hm Hf. apply (only_bind_val (fun _ => True)); auto. Qed.

Lemma only_for_each {A : Type} (xs : list A) (body : A -> M unit) :
  (forall x, raises_only (body x)) -> raises_only (for_each xs body).
Proof.
  intros Hbody. induction xs as [|x rest IH]; [apply only_mret|].
  rewrite for_each_cons. by apply only_bind.
Qed.

Lemma only_collect {A B : Type} (xs : list A) (f : A -> M B) :
  (forall x, raises_only (f x)) -> raises_only (collect xs f).
Proof.
  intros Hf. induction xs as [|x rest IH]; [apply only_mret|].
  rewrite collect_cons. apply only_bind; [done|]. intros y.
  apply only_bind; [done|]. intros ys. apply only_mret.
Qed.

Lemma only_try_except_Error {A : Type} (body handler : M A) :
  raises_only body -> raises_only handler ->
  raises_only (try_except_Error body handler).
Proof.
  intros Hb Hh w e w'. unfold try_except_Error.
  destruct (body w) as [[e1|a] w1] eqn:Hrun; [|done].
  destruct e1; try (intros [= <- _]; by eapply Hb). apply Hh.
Qed.

Lemma only_total {A : Type} (m : M A) :
  (forall w, exists a, m w = (inr a, w)) -> raises_only m.
Proof. intros Hm w e w' H. destruct (Hm w) as [a Ha]. congruence. Qed.

Lemma always_bind_l {A B : Type} (m : M A) (f : A -> M B) :
  always_raises m -> always_raises (m ≫= f).
Proof.
  intros Hm w. destruct (Hm w) as (e & w' & Hrun & He).
  exists e, w'. by rewrite (bind_inl _ _ _ _ _ Hrun).
Qed.

Lemma always_bind_val {A B : Type} (R : A -> Prop) (m : M A) (f : A -> M B) :
  raises_only m ->
  (forall w a w', m w = (inr a, w') -> R a) ->
  (forall a, R a -> always_raises (f a)) ->
  always_raises (m ≫= f).
Proof.
  intros Hm HR Hf w. destruct (m w) as [[e|a] w1] eqn:Hrun.
  - exists e, w1. rewrite (bind_inl _ _ _ _ _ Hrun). split; [done|].
    by eapply Hm.
  - rewrite (bind_inr _ _ _ _ _ Hrun). eapply Hf, HR, Hrun.
Qed.

Lemma always_bind_r {A B : Type} (m : M A) (f : A -> M B) :
  raises_only m -> (forall a, always_raises (f a)) ->
  always_raises (m ≫= f).
Proof. intros Hm Hf. apply (always_bind_val (fun _ => True)); auto. Qed.

Section Raises.
Context {C : Crypto} (E : Env).

Lemma only_db_step : raises_only (db_step E).
Proof.
  intros w e w'. unfold db_step. destruct (db_fault E (db_ops w)); [|done].
  intros [= <- _]. right. by left.
Qed.

Lemma only_time_time : raises_only (time_time E).
Proof. by intros w e w'. Qed.

Lemma only_fake_call : raises_only (fake_call E).
Proof. by intros w e w'. Qed.

Lemma only_get_random_bytes (n : nat) : raises_only (get_random_bytes E n).
Proof. by intros w e w'. Qed.

Lemma only_encrypt_field (key : bytes) (text : str) :
  length key = 32 -> raises_only (encrypt_field E key text).
Proof.
  intros Hk w e w'. rewrite encrypt_field_eq, (key_length_32 key Hk).
  cbv zeta. destruct (utf8_encode text); [done|].
  intros [= <- _]. right. by right.
Qed.

Lemma only_aes_read_loop (key : bytes) (fetched : list (list bytes)) :
  raises_only (aes_read_loop E key fetched).
Proof. intros w e w'. by rewrite aes_read_loop_total. Qed.

Lemma only_MySQLError {A : Type} : raises_only (raise (A := A) MySQLError).
Proof. apply only_raise. right. by left. Qed.

End Raises.

Create HintDb raises_only.

#[global] Hint Resolve only_mret only_gets only_modify only_bind
  only_for_each only_collect only_try_except_Error only_db_step
  only_time_time only_fake_call only_get_random_bytes only_aes_read_loop
  only_MySQLError : raises_only.
#[global] Hint Extern 4 (raises_only (match ?x with _ => _ end)) =>
  destruct x : raises_only.
#[global] Hint Unfold connect commit create_database drop_table_if_exists
  create_table truncate_table executemany select_all execute_sum
  insert_chunks elapsed_ms generate_dummy_data log_call : raises_only.

Ltac solve_raises := autounfold with raises_only; auto 30 with raises_only.

Section MainRaises.
Context {C : Crypto} (E : Env).

Lemma only_generate_dummy_data n : raises_only (generate_dummy_data E n).
Proof. solve_raises. Qed.

Lemma only_setup_database : raises_only (setup_database E).
Proof. unfold setup_database. solve_raises. Qed.

Lemma only_run_baseline data : raises_only (run_baseline E data).
Proof. unfold run_baseline. solve_raises. Qed.

Lemma get_random_bytes_length n w key w' :
  get_random_bytes E n w = (inr key, w') -> length key = n.
Proof. intros [= <- _]. apply random_at_length. Qed.

Lemma only_run_aes data : raises_only (run_aes E data).
Proof.
  unfold run_aes. apply only_bind; [solve_raises|]. intros _.
  apply only_bind; [solve_raises|]. intros _.
  apply (only_bind_val (fun key => length key = 32)); [solve_raises|..].
  { intros w key w'. apply get_random_bytes_length. }
  intros key Hk. apply only_bind; [solve_raises|]. intros start.
  apply only_bind.
  { unfold aes_encrypt_rows. apply only_collect. intros row.
    apply only_collect. intros text. by apply only_encrypt_field. }
  intros rows. solve_raises.
Qed.

Lemma only_get_exact_storage_size table_name method query :
  select_query method = Some query ->
  raises_only (get_exact_storage_size E table_name method).
Proof.
  intros Hq. unfold get_exact_storage_size, storage_size_query.
  rewrite Hq. solve_raises.
Qed.

End MainRaises.

Lemma results_init_baseline_only : baseline_only results_init.
Proof.
  split; [done|]. eexists. split; [done|]. intros k Hk.
  repeat (apply elem_of_cons in Hk as [->|Hk]; [by eexists|]).
  by apply elem_of_nil in Hk.
Qed.

Lemma results_append_baseline (results : Results) (k : string) (v : Q)
    (w : World) :
  baseline_only results -> k ∈ ["w"; "r"; "s"] ->
  exists results', results_append results "Baseline" k v w = (inr results', w)
    /\ baseline_only results'.
Proof.
  intros (Hnone & series & Hseries & Hkeys) Hk. unfold results_append.
  rewrite Hseries. destruct (Hkeys k Hk) as [values Hvalues].
  rewrite Hvalues. eexists. split; [done|]. split.
  - by rewrite lookup_insert_ne.
  - eexists. split; [apply lookup_insert_eq|]. intros k' Hk'.
    destruct (decide (k = k')) as [->|Hne].
    + rewrite lookup_insert_eq. by eexists.
    + rewrite lookup_insert_ne by done. by apply Hkeys.
Qed.

Lemma results_append_AES_Only (results : Results) (k : string) (v : Q)
    (w : World) :
  baseline_only results ->
  results_append results "AES-Only" k v w = (inl (KeyError "AES-Only"), w).
Proof. intros [Hnone _]. unfold results_append. by rewrite Hnone. Qed.

Section MainFails.
Context {C : Crypto} (E : Env).

Lemma only_results_append_baseline results k v :
  baseline_only results -> k ∈ ["w"; "r"; "s"] ->
  raises_only (results_append results "Baseline" k v).
Proof.
  intros Hr Hk. apply only_total. intros w.
  destruct (results_append_baseline results k v w Hr Hk) as (r' & Hrun & _).
  by exists r'.
Qed.

Lemma results_append_baseline_val results k v w r' w' :
  baseline_only results -> k ∈ ["w"; "r"; "s"] ->
  results_append results "Baseline" k v w = (inr r', w') -> baseline_only r'.
Proof.
  intros Hr Hk Hrun.
  destruct (results_append_baseline results k v w Hr Hk) as (r2 & Hrun2 & H2).
  congruence.
Qed.

Lemma run_batch_raises (results : Results) (count : nat) :
  baseline_only results -> always_raises (run_batch E results count).
Proof.
  intros Hr. unfold run_batch.
  apply always_bind_r; [apply only_generate_dummy_data|]. intros data.
  apply always_bind_r; [apply only_run_baseline|]. intros [wm rm].
  apply always_bind_r; [by eapply only_get_exact_storage_size|]. intros s.
  apply (always_bind_val baseline_only);
    [apply only_results_append_baseline; [done|set_solver]
    |intros ???; apply results_append_baseline_val; [done|set_solver]|].
  intros r1 Hr1.
  apply (always_bind_val baseline_only);
    [apply only_results_append_baseline; [done|set_solver]
    |intros ???; apply results_append_baseline_val; [done|set_solver]|].
  intros r2 Hr2.
  apply (always_bind_val baseline_only);
    [apply only_results_append_baseline; [done|set_solver]
    |intros ???; apply results_append_baseline_val; [done|set_solver]|].
  intros r3 Hr3.
  apply always_bind_r; [apply only_run_aes|]. intros [wm' rm'].
  apply always_bind_r; [by eapply only_get_exact_storage_size|]. intros s'.
  apply always_bind_l. intros w. eexists _, _.
  split; [by apply results_append_AES_Only|]. by left.
Qed.

(** Whatever the server, the clock, the random source and Faker do, and
    from every starting world, [main] ends with an exception and prints
    no table: with [KeyError('AES-Only')], raised when the first batch
    stores its AES timings (line 279), unless the server or the UTF-8
    encoding of a field failed before that. *)
Lemma main_never_completes (w : World) :
  exists e w', main E w = (inl e, w') /\
    (e = KeyError "AES-Only" \/ e = MySQLError \/ e = UnicodeEncodeError).
Proof.
  revert w. change (always_raises (main E)). unfold main.
  apply always_bind_r; [apply only_setup_database|]. intros _.
  apply always_bind_l. unfold BATCH_SIZES. cbn [run_batches].
  apply always_bind_l, run_batch_raises, results_init_baseline_only.
Qed.

End MainFails.

(** ** The run with a server that answers and text that encodes *)

Lemma succeeds_mret {A : Type} (R : A -> Prop) (a : A) :
  R a -> succeeds R (mret a).
Proof. intros Ha w Hw. by exists a, w. Qed.

Lemma succeeds_weaken {A : Type} (R R' : A -> Prop) (m : M A) :
  succeeds R m -> (forall a, R a -> R' a) -> succeeds R' m.
Proof.
  intros Hm HR w Hw. destruct (Hm w Hw) as (a & w' & Hrun & Ha & Hw').
  exists a, w'. auto.
Qed.

Lemma succeeds_bind {A B : Type} (R : A -> Prop) (R' : B -> Prop) (m : M A)
    (f : A -> M B) :
  succeeds R m -> (forall a, R a -> succeeds R' (f a)) ->
  succeeds R' (m ≫= f).
Proof.
  intros Hm Hf w Hw. destruct (Hm w Hw) as (a & w1 & Hrun & Ha & Hw1).
  rewrite (bind_inr _ _ _ _ _ Hrun). by apply Hf.
Qed.

Lemma succeeds_for_each {A : Type} (xs : list A) (body : A -> M unit) :
  (forall x, succeeds any (body x)) -> succeeds any (for_each xs body).
Proof.
  intros Hbody. induction xs as [|x rest IH]; [by apply succeeds_mret|].
  rewrite for_each_cons. by eapply succeeds_bind.
Qed.

Lemma succeeds_collect {A B : Type} (R : B -> Prop) (xs : list A)
    (f : A -> M B) :
  (forall x, x ∈ xs -> succeeds R (f x)) -> succeeds (Forall R) (collect xs f).
Proof.
  induction xs as [|x rest IH]; intros Hf; [by apply succeeds_mret|].
  rewrite collect_cons.
  eapply succeeds_bind; [apply Hf; by left|]. intros y Hy.
  eapply succeeds_bind; [apply IH; intros z Hz; apply Hf; by right|].
  intros ys Hys. apply succeeds_mret. by constructor.
Qed.

Lemma succeeds_step {A : Type} (R : A -> Prop) (m : M A) :
  (forall w, exists a w', m w = (inr a, w') /\ R a /\
     patient_baseline w' = patient_baseline w /\
     patient_aes w' = patient_aes w /\
     patient_hybrid w' = patient_hybrid w) ->
  succeeds R m.
Proof.
  intros Hm w (Hb & Ha & Hh).
  destruct (Hm w) as (a & w' & Hrun & HR & Hb' & Ha' & Hh').
  exists a, w'. unfold ready. by rewrite Hb', Ha', Hh'.
Qed.

Lemma ends_bind_l {A B : Type} (e : PyExc) (m : M A) (f : A -> M B) :
  ends_with e m -> ends_with e (m ≫= f).
Proof.
  intros Hm w Hw. destruct (Hm w Hw) as (w' & Hrun & Hw').
  exists w'. by rewrite (bind_inl _ _ _ _ _ Hrun).
Qed.

Lemma ends_bind_r {A B : Type} (R : A -> Prop) (e : PyExc) (m : M A)
    (f : A -> M B) :
  succeeds R m -> (forall a, R a -> ends_with e (f a)) ->
  ends_with e (m ≫= f).
Proof.
  intros Hm Hf w Hw. destruct (Hm w Hw) as (a & w1 & Hrun & Ha & Hw1).
  rewrite (bind_inr _ _ _ _ _ Hrun). by apply Hf.
Qed.

Section Healthy.
Context {C : Crypto} (E : Env).
Hypothesis server_up : forall n, db_fault E n = false.
Hypothesis faker_encodes : forall i, is_Some (utf8_encode (fake E i)).

Lemma succeeds_db_step : succeeds any (db_step E).
Proof.
  apply succeeds_step. intros w. unfold db_step. rewrite server_up.
  by eexists _, _.
Qed.

Lemma succeeds_time_time : succeeds any (time_time E).
Proof. apply succeeds_step. intros w. by eexists _, _. Qed.

Lemma succeeds_fake_call :
  succeeds (fun text => is_Some (utf8_encode text)) (fake_call E).
Proof. apply succeeds_step. intros w. eexists _, _. by split. Qed.

Lemma succeeds_get_random_bytes (n : nat) :
  succeeds (fun key => length key = n) (get_random_bytes E n).
Proof.
  apply succeeds_step. intros w. eexists _, _. split; [done|].
  split; [apply random_at_length|done].
Qed.

Lemma succeeds_log_call name data : succeeds any (log_call name data).
Proof. apply succeeds_step. intros w. by eexists _, _. Qed.

Lemma succeeds_elapsed_ms start : succeeds any (elapsed_ms E start).
Proof.
  unfold elapsed_ms. eapply succeeds_bind; [apply succeeds_time_time|].
  intros now _. by apply succeeds_mret.
Qed.

Lemma succeeds_insert_baseline (rows : list Row) :
  succeeds any (insert_chunks E patient_baseline set_patient_baseline rows).
Proof.
  apply succeeds_for_each. intros i. unfold executemany.
  eapply succeeds_bind; [apply succeeds_db_step|]. intros _ _.
  intros w (Hb & Ha & Hh). destruct Hb as [t Ht].
  unfold mbind, M_bind, gets. rewrite Ht. eexists _, _. split; [done|].
  split; [done|]. by split_and!.
Qed.

Lemma succeeds_insert_aes (rows : list (list bytes)) :
  succeeds any (insert_chunks E patient_aes set_patient_aes rows).
Proof.
  apply succeeds_for_each. intros i. unfold executemany.
  eapply succeeds_bind; [apply succeeds_db_step|]. intros _ _.
  intros w (Hb & Ha & Hh). destruct Ha as [t Ht].
  unfold mbind, M_bind, gets. rewrite Ht. eexists _, _. split; [done|].
  split; [done|]. by split_and!.
Qed.

Lemma succeeds_select_all {R : Type} (get : World -> option (list R)) :
  (forall w, ready w -> is_Some (get w)) ->
  succeeds any (select_all E get).
Proof.
  intros Hget. unfold select_all.
  eapply succeeds_bind; [apply succeeds_db_step|]. intros _ _.
  intros w Hw. destruct (Hget w Hw) as [t Ht].
  unfold mbind, M_bind, gets. rewrite Ht. by eexists _, _.
Qed.

Lemma succeeds_generate_dummy_data (n : nat) :
  succeeds (Forall encodable) (generate_dummy_data E n).
Proof.
  unfold generate_dummy_data. apply succeeds_collect. intros _ _.
  eapply succeeds_bind; [apply succeeds_fake_call|]. intros name Hname.
  eapply succeeds_bind; [apply succeeds_fake_call|]. intros email Hemail.
  eapply succeeds_bind; [apply succeeds_fake_call|]. intros notes Hnotes.
  apply succeeds_mret. by repeat constructor.
Qed.

Lemma succeeds_run_baseline (data : list Row) :
  succeeds any (run_baseline E data).
Proof.
  unfold run_baseline, connect, commit.
  eapply succeeds_bind; [apply succeeds_log_call|]. intros _ _.
  eapply succeeds_bind; [apply succeeds_db_step|]. intros _ _.
  eapply succeeds_bind; [apply succeeds_time_time|]. intros start _.
  eapply succeeds_bind; [apply succeeds_insert_baseline|]. intros _ _.
  eapply succeeds_bind; [apply succeeds_db_step|]. intros _ _.
  eapply succeeds_bind; [apply succeeds_elapsed_ms|]. intros write_ms _.
  eapply succeeds_bind; [apply succeeds_time_time|]. intros start' _.
  eapply succeeds_bind.
  { apply succeeds_select_all. intros w ([t Ht] & _). rewrite Ht.
    by eexists. }
  intros fetched _.
  eapply succeeds_bind; [apply succeeds_elapsed_ms|]. intros read_ms _.
  by apply succeeds_mret.
Qed.

Lemma succeeds_encrypt_field (key : bytes) (text : str) :
  length key = 32 -> is_Some (utf8_encode text) ->
  succeeds any (encrypt_field E key text).
Proof.
  intros Hk [pt Hpt]. apply succeeds_step. intros w.
  rewrite encrypt_field_eq, (key_length_32 key Hk), Hpt. by eexists _, _.
Qed.

Lemma succeeds_run_aes (data : list Row) :
  Forall encodable data -> succeeds any (run_aes E data).
Proof.
  intros Hdata. unfold run_aes, connect, commit.
  eapply succeeds_bind; [apply succeeds_log_call|]. intros _ _.
  eapply succeeds_bind; [apply succeeds_db_step|]. intros _ _.
  eapply succeeds_bind; [apply succeeds_get_random_bytes|]. intros key Hk.
  eapply succeeds_bind; [apply succeeds_time_time|]. intros start _.
  eapply succeeds_bind.
  { unfold aes_encrypt_rows. apply (succeeds_collect any). intros row Hrow.
    eapply succeeds_weaken; [|done].
    apply (succeeds_collect any). intros text Htext.
    apply succeeds_encrypt_field; [done|].
    rewrite Forall_forall in Hdata. specialize (Hdata row Hrow).
    unfold encodable in Hdata. rewrite Forall_forall in Hdata. auto. }
  intros rows _.
  eapply succeeds_bind; [apply succeeds_insert_aes|]. intros _ _.
  eapply succeeds_bind; [apply succeeds_db_step|]. intros _ _.
  eapply succeeds_bind; [apply succeeds_elapsed_ms|]. intros write_ms _.
  eapply succeeds_bind; [apply succeeds_time_time|]. intros start' _.
  eapply succeeds_bind.
  { apply succeeds_select_all. intros w (_ & [t Ht] & _). rewrite Ht.
    by eexists. }
  intros fetched _.
  eapply (succeeds_bind any).
  { apply succeeds_step. intros w. rewrite aes_read_loop_total.
    by eexists _, _. }
  intros _ _.
  eapply succeeds_bind; [apply succeeds_elapsed_ms|]. intros read_ms _.
  by apply succeeds_mret.
Qed.

Lemma succeeds_get_exact_storage_size table_name method query :
  select_query method = Some query ->
  succeeds any (get_exact_storage_size E table_name method).
Proof.
  intros Hq w Hw. unfold get_exact_storage_size, try_except_Error.
  assert (succeeds any (storage_size_query E table_name method)) as Hbody.
  { unfold storage_size_query, connect. rewrite Hq.
    eapply succeeds_bind; [apply succeeds_db_step|]. intros _ _.
    eapply (succeeds_bind any); [|intros result _; by apply succeeds_mret].
    unfold execute_sum.
    eapply succeeds_bind; [apply succeeds_db_step|]. intros _ _.
    intros w1 Hw1. pose proof Hw1 as ([tb Hb] & [ta Ha] & Hh).
    assert (is_Some (row_octets query w1)) as [octets Hoct].
    { destruct query; cbn; rewrite ?Hb, ?Ha, ?Hh; by eexists. }
    unfold mbind, M_bind, gets. rewrite Hoct. by eexists _, _. }
  destruct (Hbody w Hw) as (a & w' & -> & _ & Hw'). by exists a, w'.
Qed.

Lemma setup_database_ready (w : World) :
  exists w', setup_database E w = (inr tt, w') /\ ready w'.
Proof.
  unfold setup_database, try_except_Error, connect, create_database,
    drop_table_if_exists, create_table, db_step, modify, gets, mbind, M_bind.
  repeat (rewrite server_up; cbn).
  eexists. split; [done|]. by split_and!.
Qed.

Lemma succeeds_results_append_baseline results k v :
  baseline_only results -> k ∈ ["w"; "r"; "s"] ->
  succeeds baseline_only (results_append results "Baseline" k v).
Proof.
  intros Hr Hk. apply succeeds_step. intros w.
  destruct (results_append_baseline results k v w Hr Hk) as (r' & Hrun & Hr').
  by exists r', w.
Qed.

Lemma run_batch_KeyError (results : Results) (count : nat) :
  baseline_only results ->
  ends_with (KeyError "AES-Only") (run_batch E results count).
Proof.
  intros Hr. unfold run_batch.
  eapply ends_bind_r; [apply succeeds_generate_dummy_data|]. intros data Hdata.
  eapply ends_bind_r; [apply succeeds_run_baseline|]. intros [wm rm] _.
  eapply ends_bind_r; [by eapply succeeds_get_exact_storage_size|].
  intros s _.
  eapply ends_bind_r;
    [apply succeeds_results_append_baseline; [done|set_solver]|].
  intros r1 Hr1.
  eapply ends_bind_r;
    [apply succeeds_results_append_baseline; [done|set_solver]|].
  intros r2 Hr2.
  eapply ends_bind_r;
    [apply succeeds_results_append_baseline; [done|set_solver]|].
  intros r3 Hr3.
  eapply ends_bind_r; [by apply succeeds_run_aes|]. intros [wm' rm'] _.
  eapply ends_bind_r; [by eapply succeeds_get_exact_storage_size|].
  intros s' _.
  apply ends_bind_l. intros w Hw. exists w.
  split; [by apply results_append_AES_Only|done].
Qed.


End Healthy.

(** ** The baseline table holds the data set as it was passed *)

Lemma chunks_cover {A : Type} (step m : nat) (xs : list A) :
  length xs <= m * step ->
  concat ((fun k => slice (k * step) step xs) <$> seq 0 m) = xs.
Proof.
  revert xs. induction m as [|m IH]; intros xs Hlen.
  - by destruct xs; [|cbn in Hlen; lia].
  - cbn [seq fmap list_fmap concat]. unfold slice at 1. cbn [Nat.mul drop].
    rewrite <- fmap_S_seq, <- list_fmap_compose. rewrite drop_0.
    transitivity (take step xs ++ drop step xs); [|apply take_drop].
    f_equal.
    etransitivity; [|apply (IH (drop step xs)); rewrite length_drop; lia].
    f_equal. apply list_fmap_ext. intros _ k _. unfold compose, slice.
    rewrite drop_drop. by replace (step + k * step) with (S k * step) by lia.
Qed.

Lemma range_step_chunks {A : Type} (step : nat) (xs : list A) :
  0 < step ->
  concat ((fun i => slice i step xs) <$> range_step (length xs) step) = xs.
Proof.
  intros Hstep. unfold range_step. rewrite <- list_fmap_compose.
  apply (chunks_cover step). 
  pose proof (Nat.div_mod (length xs + step - 1) step ltac:(lia)) as Hdiv.
  pose proof (Nat.mod_upper_bound (length xs + step - 1) step ltac:(lia)).
  nia.
Qed.

Section Baseline.
Context {C : Crypto} (E : Env).
Hypothesis server_up : forall n, db_fault E n = false.

Lemma executemany_baseline (chunk t : list Row) (w : World) :
  patient_baseline w = Some t ->
  exists w', executemany E patient_baseline set_patient_baseline chunk w
             = (inr tt, w') /\ patient_baseline w' = Some (t ++ chunk).
Proof.
  intros Ht. unfold executemany, db_step, gets, modify, mbind, M_bind.
  rewrite server_up. cbn. rewrite Ht. by eexists.
Qed.

Lemma for_each_executemany_baseline (chunks : list (list Row)) (t : list Row)
    (w : World) :
  patient_baseline w = Some t ->
  exists w',
    for_each chunks (executemany E patient_baseline set_patient_baseline) w
      = (inr tt, w') /\
    patient_baseline w' = Some (t ++ concat chunks).
Proof.
  revert t w. induction chunks as [|chunk rest IH]; intros t w Ht.
  - exists w. by rewrite app_nil_r.
  - destruct (executemany_baseline chunk t w Ht) as (w1 & Hrun & Ht1).
    destruct (IH _ w1 Ht1) as (w2 & Hrest & Ht2).
    exists w2. rewrite for_each_cons, (bind_inr _ _ _ _ _ Hrun).
    split; [done|]. by rewrite Ht2, <- app_assoc.
Qed.

Lemma for_each_fmap {A B : Type} (g : A -> B) (xs : list A)
    (body : B -> M unit) :
  for_each (g <$> xs) body = for_each xs (fun x => body (g x)).
Proof. induction xs as [|x rest IH]; [done|]. cbn. by rewrite IH. Qed.

Lemma insert_chunks_baseline (data t : list Row) (w : World) :
  patient_baseline w = Some t ->
  exists w',
    insert_chunks E patient_baseline set_patient_baseline data w = (inr tt, w')
    /\ patient_baseline w' = Some (t ++ data).
Proof.
  intros Ht. unfold insert_chunks.
  destruct (for_each_executemany_baseline
              ((fun i => slice i CHUNK_SIZE data)
                 <$> range_step (length data) CHUNK_SIZE) t w Ht)
    as (w' & Hrun & Ht').
  exists w'. rewrite for_each_fmap in Hrun. split; [done|].
  rewrite Ht'. by rewrite range_step_chunks by (unfold CHUNK_SIZE; lia).
Qed.

Lemma select_all_baseline (t : list Row) (w : World) :
  patient_baseline w = Some t ->
  exists w',
    select_all E (fun w => with_ids <$> patient_baseline w) w
      = (inr (with_ids t), w') /\
    patient_baseline w' = Some t.
Proof.
  intros Ht. unfold select_all, db_step, gets, mbind, M_bind.
  rewrite server_up. cbn. rewrite Ht. by eexists.
Qed.

Lemma with_ids_rows {R : Type} (t : list R) : (with_ids t).*2 = t.
Proof.
  unfold with_ids. rewrite fmap_imap. rewrite <- (list_fmap_id t) at 2.
  by rewrite <- imap_const.
Qed.

End Baseline.

(** ** The rate *)

Lemma tps_positive (count : nat) (w : Q) (st : World) :
  (0 < w)%Q ->
  tps count w st = (inr (inject_Z (Z.of_nat count) / (w / 1000))%Q, st).
Proof.
  intros Hw. unfold tps.
  destruct (Qle_bool w 0) eqn:Hle.
  { apply Qle_bool_iff in Hle. by apply Qle_not_lt in Hle. }
  cbn [negb]. erewrite bind_inr; [|reflexivity].
  unfold py_div. destruct (Qeq_bool (w / 1000) 0) eqn:Hz; [|done].
  apply Qeq_bool_iff in Hz. exfalso.
  apply (Qlt_irrefl 0). rewrite <- Hz at 2.
  apply Qlt_shift_div_l; [done|]. by rewrite Qmult_0_l.
Qed.

Lemma tps_not_positive (count : nat) (w : Q) (st : World) :
  (w <= 0)%Q -> tps count w st = (inr 0%Q, st).
Proof. intros Hw. unfold tps. apply Qle_bool_iff in Hw. by rewrite Hw. Qed.

(** * The claims *)

(** ** C1: [main] records a result for every strategy and batch size *)

(** C1 fails on the code.  With a server that answers every statement
    and generated text that encodes, [main] stops in its first batch:
    after [run_baseline] and [run_aes] have run, storing the AES timings
    under the key 'AES-Only' (line 279) raises [KeyError], since
    [results] was created with the key 'AES'.  No AES or Hybrid result
    is recorded, the hybrid table is still empty, and no table is
    printed. *)
Theorem main_raises_KeyError `{C : Crypto} (E : Env) :
  (forall n, db_fault E n = false) ->
  (forall i, is_Some (utf8_encode (fake E i))) ->
  forall w : World,
    exists w', main E w = (inl (KeyError "AES-Only"), w') /\
      patient_hybrid w' = Some [].
Proof.
  intros Hup Hfake w. unfold main.
  destruct (setup_database_ready E Hup w) as (w1 & Hsetup & Hw1).
  rewrite (bind_inr _ _ _ _ _ Hsetup).
  destruct (run_batch_KeyError E Hup Hfake results_init 1000
              results_init_baseline_only w1 Hw1) as (w2 & Hrun & Hw2).
  exists w2. split; [|apply Hw2].
  apply bind_inl. unfold BATCH_SIZES. cbn [run_batches]. by apply bind_inl.
Qed.

Lemma toy_faker_encodes (i : nat) : is_Some (utf8_encode (fake Toy.env i)).
Proof.
  cbn [fake Toy.env]. pose proof (Nat.mod_upper_bound i 9 ltac:(lia)) as Hi.
  destruct (i mod 9) as [|[|[|[|[|[|[|[|[|n]]]]]]]]]; try (by eexists). lia.
Qed.

Lemma main_raises_KeyError_witness :
  exists w', main Toy.env Toy.world0 = (inl (KeyError "AES-Only"), w') /\
    patient_hybrid w' = Some [].
Proof.
  apply (main_raises_KeyError Toy.env (fun n => eq_refl) toy_faker_encodes).
Defined.

(** ** C2: decoding an encoded field gives back the field *)

(** C2.  With a cipher whose decryption inverts its encryption and whose
    tags have 16 bytes, and a wrap that unwraps: the cell [encrypt_field]
    builds from a text that UTF-8 encodes to [pt] is decrypted by
    [decrypt_cell], under the same key, to exactly [pt]; and the row
    [hybrid_encrypt_row] builds from a record is decrypted by
    [hybrid_decrypt_row], through its wrapped key, to exactly the
    encodings of the record's three fields.  For the baseline, with a
    server that answers: the rows [run_baseline] inserts into an empty
    table are, ids apart, the rows its SELECT fetches. *)
Theorem reveal_protect_roundtrip `{C : Crypto} (E : Env) :
  gcm_decrypt_encrypt -> gcm_mac_length ->
  oaep_decrypt_encrypt -> oaep_encrypt_length ->
  (forall (key : bytes) (text : str) (pt : bytes) (w : World),
     length key = 32 -> utf8_encode text = Some pt ->
     exists cell w',
       encrypt_field E key text w = (inr cell, w') /\
       forall w2, decrypt_cell E key cell w2 = (inr pt, w2))
  /\
  (forall (kp : RsaKey) (row : Row) (pts : list bytes) (w : World),
     Forall2 (fun text pt => utf8_encode text = Some pt) (fields row) pts ->
     exists enc_row blob w',
       hybrid_encrypt_row E (publickey kp) row w = (inr enc_row, w') /\
       enc_row !! 3 = Some blob /\
       forall w2, hybrid_decrypt_row E kp blob enc_row w2 = (inr pts, w2))
  /\
  (forall (data : list Row) (w : World),
     (forall n, db_fault E n = false) -> patient_baseline w = Some [] ->
     exists w1 fetched w2,
       insert_chunks E patient_baseline set_patient_baseline data w
         = (inr tt, w1) /\
       select_all E (fun w => with_ids <$> patient_baseline w) w1
         = (inr fetched, w2) /\
       snd <$> fetched = data).
Proof.
  intros Hdec Hmac Hunwrap Hwrap. split_and!.
  - intros key text pt w Hk Hpt. eexists _, _. split.
    + by rewrite encrypt_field_eq, (key_length_32 key Hk), Hpt.
    + intros w2. apply decrypt_field_blob;
        [done|done|by apply key_length_32|apply random_at_length].
  - intros kp row pts w Hpts.
    destruct (fields_encodable_length row pts Hpts) as (p0 & p1 & p2 & ->).
    destruct (hybrid_decrypt_row_eq E kp (rng_pos w) p0 p1 p2 w
                Hdec Hmac Hunwrap Hwrap) as (blob & Hblob & _).
    eexists _, blob, _. split; [by apply hybrid_encrypt_row_eq|].
    split; [done|]. intros w2.
    destruct (hybrid_decrypt_row_eq E kp (rng_pos w) p0 p1 p2 w2
                Hdec Hmac Hunwrap Hwrap) as (blob' & Hblob' & Hrow).
    cbv zeta in *. by simplify_eq.
  - intros data w Hup Hempty.
    destruct (insert_chunks_baseline E Hup data [] w Hempty)
      as (w1 & Hins & Htable).
    destruct (select_all_baseline E Hup _ w1 Htable) as (w2 & Hsel & _).
    exists w1, (with_ids data), w2. split_and!; [done|done|apply with_ids_rows].
Qed.

Lemma reveal_protect_roundtrip_witness :
  (exists cell w',
     encrypt_field Toy.env Toy.key32 (str_of "hi") Toy.world0 = (inr cell, w') /\
     forall w2, decrypt_cell Toy.env Toy.key32 cell w2
                = (inr ["h"%byte; "i"%byte], w2))
  /\
  (exists enc_row blob w',
     hybrid_encrypt_row Toy.env (Toy.key32 : RsaPub)
       (str_of "Alice", str_of "a@x.com", str_of "hi") Toy.world0
       = (inr enc_row, w') /\
     enc_row !! 3 = Some blob /\
     forall w2, hybrid_decrypt_row Toy.env (Toy.key32 : RsaKey) blob enc_row w2
                = (inr [[x41; x6c; x69; x63; x65];
                        [x61; x40; x78; x2e; x63; x6f; x6d];
                        [x68; x69]], w2))
  /\
  (exists w1 fetched w2,
     insert_chunks Toy.env patient_baseline set_patient_baseline
       [(str_of "Alice", str_of "a@x.com", str_of "hi")] Toy.world_ready
       = (inr tt, w1) /\
     select_all Toy.env (fun w => with_ids <$> patient_baseline w) w1
       = (inr fetched, w2) /\
     snd <$> fetched = [(str_of "Alice", str_of "a@x.com", str_of "hi")]).
Proof.
  pose proof (reveal_protect_roundtrip Toy.env toy_decrypt_encrypt
    toy_mac_length toy_oaep_decrypt_encrypt toy_oaep_encrypt_length)
    as (Hfield & Hrow & Hbase).
  split_and!.
  - apply Hfield; reflexivity.
  - apply (Hrow Toy.key32). repeat constructor.
  - apply Hbase; reflexivity.
Defined.

(** ** C3: the layout of an encoded field *)

(** C3.  With a cipher that keeps the length of its input and 16-byte
    tags: a cell built by [encrypt_field] is the 16-byte nonce
    [AES.new] drew, then the 16-byte tag of the ciphertext, then the
    ciphertext of the UTF-8 encoding [pt] of the text, in this order, so
    that slicing at 16 and 32 gives back the three parts; it has
    [32 + length pt] bytes, at least 33 when the text is not empty.  The
    AES write loop makes one row of 3 such cells for each record: cell
    [j] of row [i] is the blob of field [j] of record [i] under the
    loop's key; 3 records give 3 rows of 3 cells, 9 cells in all. *)
Theorem encoded_field_layout `{C : Crypto} (E : Env) :
  gcm_encrypt_length -> gcm_mac_length ->
  (forall (key : bytes) (text : str) (w : World) (cell : bytes) (w' : World),
     encrypt_field E key text w = (inr cell, w') ->
     exists pt,
       utf8_encode text = Some pt /\
       let nonce := random_at E (rng_pos w) 16 in
       let ciphertext := gcm_encrypt key nonce pt in
       let tag := gcm_mac key nonce ciphertext in
       cell = nonce ++ tag ++ ciphertext /\
       cell = field_blob key nonce pt /\
       take 16 cell = nonce /\
       take 16 (drop 16 cell) = tag /\
       drop 32 cell = ciphertext /\
       length nonce = 16 /\ length tag = 16 /\
       length ciphertext = length pt /\
       length cell = 32 + length pt /\
       (text <> [] -> 33 <= length cell))
  /\
  (forall (key : bytes) (data : list Row) (w : World)
          (rows : list (list bytes)) (w' : World),
     aes_encrypt_rows E key data w = (inr rows, w') ->
     length rows = length data /\
     Forall (fun row => length row = 3) rows /\
     length (concat rows) = 3 * length data /\
     (length data = 3 -> length (concat rows) = 9) /\
     (forall (i j : nat) (row : Row) (text : str),
        data !! i = Some row -> fields row !! j = Some text ->
        exists (pt : bytes) (cells : list bytes),
          utf8_encode text = Some pt /\
          rows !! i = Some cells /\
          cells !! j =
            Some (field_blob key
                    (random_at E (rng_pos w + 48 * i + 16 * j) 16) pt))).
Proof.
  intros Hlen Hmac. split.
  - intros key text w cell w' H.
    destruct (encrypt_field_inv E key text w cell w' H) as (pt & Hpt & _ & ->).
    exists pt. unfold field_blob. cbv zeta.
    destruct (blob_slices (random_at E (rng_pos w) 16)
                (gcm_mac key (random_at E (rng_pos w) 16)
                   (gcm_encrypt key (random_at E (rng_pos w) 16) pt))
                (gcm_encrypt key (random_at E (rng_pos w) 16) pt))
      as (-> & -> & ->); [apply random_at_length|apply Hmac|].
    rewrite !length_app, random_at_length, Hmac, Hlen.
    split_and!; try done.
    intros Htext. pose proof (utf8_encode_nonempty text pt Hpt Htext). lia.
  - intros key data w rows w' H.
    destruct (aes_encrypt_rows_shape E key data w rows w' H) as [Hrows Hall].
    assert (length (concat rows) = 3 * length data) as Hcells.
    { rewrite (length_concat_const 3) by done. lia. }
    split_and!; [done|done|done|lia|].
    intros i j row text Hrow Htext.
    destruct (aes_encrypt_rows_cells E key data w rows w' H)
      as (ptss & Hptss & ->).
    destruct (Forall2_lookup_l _ _ _ _ _ Hptss Hrow) as (pts & Hpts & Henc).
    destruct (Forall2_lookup_l _ _ _ _ _ Henc Htext) as (pt & Hpt & Hutf).
    exists pt. eexists. split; [done|].
    rewrite list_lookup_imap, Hpts. split; [reflexivity|].
    by rewrite list_lookup_imap, Hpt.
Qed.

Lemma encoded_field_layout_witness :
  (encrypt_field Toy.env Toy.key32 (str_of "hi") Toy.world0
     = (inr toy_cell, set_rng_pos 16 Toy.world0) /\
   length toy_cell = 34 /\
   take 16 (drop 16 toy_cell)
     = gcm_mac (Crypto := Toy.crypto) Toy.key32 (random_at Toy.env 0 16)
         (drop 32 toy_cell))
  /\
  (aes_encrypt_rows Toy.env Toy.key32 toy_records Toy.world0
     = (inr toy_sealed_records, set_rng_pos 144 Toy.world0) /\
   length (concat toy_sealed_records) = 9 /\
   exists cells,
     toy_sealed_records !! 1 = Some cells /\
     cells !! 2 =
       Some (field_blob (H := Toy.crypto) Toy.key32
               (random_at Toy.env (0 + 48 * 1 + 16 * 2) 16) [x79; x6f])).
Proof.
  destruct (encoded_field_layout Toy.env toy_encrypt_length toy_mac_length)
    as [Hcell Hrows].
  split.
  - split; [reflexivity|].
    destruct (Hcell Toy.key32 (str_of "hi") Toy.world0 toy_cell
                (set_rng_pos 16 Toy.world0) eq_refl)
      as (pt & Hpt & _ & _ & _ & Htag & Hct & _ & _ & _ & Hlen & _).
    injection Hpt as <-. split; [exact Hlen|].
    rewrite Hct. exact Htag.
  - assert (aes_encrypt_rows Toy.env Toy.key32 toy_records Toy.world0
            = (inr toy_sealed_records, set_rng_pos 144 Toy.world0)) as Hrun
      by reflexivity.
    split; [exact Hrun|].
    destruct (Hrows Toy.key32 toy_records Toy.world0 toy_sealed_records
                (set_rng_pos 144 Toy.world0) Hrun)
      as (_ & _ & _ & Hnine & Htie).
    split; [by apply Hnine|].
    destruct (Htie 1 2 (str_of "Bob", str_of "b@x.com", str_of "yo")
                (str_of "yo") eq_refl eq_refl)
      as (pt & cells & Hpt & Hcells & Hj).
    injection Hpt as <-. exists cells. split; [exact Hcells|exact Hj].
Defined.

(** ** C4: a flipped bit in the tag or the ciphertext is detected *)

(** C4.  With 16-byte tags: for a cell built by [encrypt_field],
    flipping any bit of the tag region (bytes 16 to 31) makes
    [decrypt_cell] raise the tag verification error, whatever the tag
    function is; and when the tag changes with every single flipped bit
    of the ciphertext, flipping any bit of the ciphertext region (bytes
    32 and beyond) does the same.  In both cases no plaintext is
    returned.  (The second assumption is GCM's own: its tag is a
    polynomial in the hash subkey over a field, so one changed block
    changes it unless the subkey is zero.) *)
Theorem tamper_detected `{C : Crypto} (E : Env) :
  gcm_mac_length ->
  forall (key : bytes) (text : str) (w : World) (cell : bytes) (w' : World)
         (i : nat) (w2 : World),
    encrypt_field E key text w = (inr cell, w') ->
    (8 * 16 <= i < 8 * 32 ->
     decrypt_cell E key (flip_bit i cell) w2
     = (inl (ValueError "MAC check failed"), w2))
    /\
    (gcm_mac_bit_sensitive ->
     8 * 32 <= i < 8 * length cell ->
     decrypt_cell E key (flip_bit i cell) w2
     = (inl (ValueError "MAC check failed"), w2)).
Proof.
  intros Hmac key text w cell w' i w2 H.
  destruct (encrypt_field_inv E key text w cell w' H) as (pt & _ & Hk & ->).
  unfold field_blob in *.
  set (nonce := random_at E (rng_pos w) 16) in *.
  set (ct := gcm_encrypt key nonce pt) in *.
  assert (length nonce = 16) as Hn by apply random_at_length.
  rewrite !length_app, Hn, Hmac. split.
  - intros Hi. rewrite flip_bit_app_r by lia. rewrite Hn.
    rewrite flip_bit_app_l by (rewrite Hmac; lia).
    rewrite decrypt_cell_blob; [|done|by rewrite flip_bit_length|done].
    rewrite bool_decide_eq_false_2; [done|].
    apply flip_bit_changes. rewrite Hmac. lia.
  - intros Hsens Hi. rewrite flip_bit_app_r by lia. rewrite Hn.
    rewrite flip_bit_app_r by (rewrite Hmac; lia). rewrite Hmac.
    rewrite decrypt_cell_blob; [|done|done|done].
    rewrite bool_decide_eq_false_2; [done|].
    intros Heq. eapply Hsens; [|symmetry; exact Heq]. lia.
Qed.

Lemma tamper_detected_witness :
  decrypt_cell Toy.env Toy.key32 (flip_bit 130 toy_cell) Toy.world0
  = (inl (ValueError "MAC check failed"), Toy.world0)
  /\
  decrypt_cell Toy.env Toy.key32 (flip_bit 265 toy_cell) Toy.world0
  = (inl (ValueError "MAC check failed"), Toy.world0).
Proof.
  assert (length toy_cell = 34) as Hlen by reflexivity.
  split.
  - apply (proj1 (tamper_detected Toy.env toy_mac_length Toy.key32
             (str_of "hi") Toy.world0 toy_cell (set_rng_pos 16 Toy.world0)
             130 Toy.world0 eq_refl)).
    lia.
  - apply (proj2 (tamper_detected Toy.env toy_mac_length Toy.key32
             (str_of "hi") Toy.world0 toy_cell (set_rng_pos 16 Toy.world0)
             265 Toy.world0 eq_refl)); [apply toy_mac_bit_sensitive|].
    rewrite Hlen. lia.
Defined.

(** ** C5: a record that does not decode is skipped *)




(** ** C6: a cell shorter than its header *)

(** C6, as the code has it.  With 16-byte tags and a key of 32 bytes:
    [decrypt_cell] makes no length check.  On a cell of 1 to 31 bytes it
    raises the tag verification error, the very exception a tampered
    cell raises; on an empty cell the cipher constructor raises. *)
Theorem short_cell_error `{C : Crypto} (E : Env) :
  gcm_mac_length ->
  forall (key cell : bytes) (w : World),
    length key = 32 -> length cell < 32 ->
    decrypt_cell E key cell w =
    (inl (ValueError (if length cell =? 0 then "Nonce cannot be empty"
                      else "MAC check failed")), w).
Proof.
  intros Hmac key cell w Hk Hcell. rewrite decrypt_cell_eq. cbv zeta.
  rewrite (key_length_32 key Hk), length_take.
  destruct cell as [|b cell]; [done|]. cbn [length] in *.
  destruct (Nat.eqb_spec (16 `min` S (length cell)) 0) as [?|_]; [lia|].
  rewrite bool_decide_eq_false_2; [done|].
  intros Heq. apply (f_equal length) in Heq.
  rewrite Hmac, length_take, length_drop in Heq. cbn [length] in Heq. lia.
Qed.

Lemma short_cell_error_witness :
  decrypt_cell Toy.env Toy.key32 (take 20 toy_cell) Toy.world0
  = (inl (ValueError "MAC check failed"), Toy.world0).
Proof.
  apply (short_cell_error Toy.env toy_mac_length Toy.key32 (take 20 toy_cell)
           Toy.world0 eq_refl).
  by apply Nat.ltb_lt.
Defined.

(** C6 as stated fails: a 20-byte cell and a cell with one flipped tag
    bit raise the same exception, and an exception handler cannot tell
    the two causes apart. *)
Lemma short_cell_raises_like_tampered_cell :
  decrypt_cell Toy.env Toy.key32 (take 20 toy_cell) Toy.world0
  = (inl (ValueError "MAC check failed"), Toy.world0)
  /\
  decrypt_cell Toy.env Toy.key32 (flip_bit 130 toy_cell) Toy.world0
  = (inl (ValueError "MAC check failed"), Toy.world0).
Proof. by vm_compute. Qed.

(** ** C7: transactions per second *)

(** C7, as the code has it.  The guard is [w > 0].  For a write time of
    0 the rate is 0, and for a positive one it is [count / (w / 1000)];
    for a negative one it is 0 as well, not the quotient.  The division
    is only reached with a divisor that is not zero, so no
    [ZeroDivisionError] is raised, whatever the write time. *)
Theorem tps_zero_when_no_time (count : nat) (w : Q) (st : World) :
  (w == 0 -> tps count w st = (inr 0, st))%Q /\
  (0 < w ->
   tps count w st = (inr (inject_Z (Z.of_nat count) / (w / 1000)), st))%Q /\
  (w < 0 -> tps count w st = (inr 0, st))%Q /\
  (forall st', tps count w st <> (inl ZeroDivisionError, st')).
Proof.
  split_and!.
  - intros Hz. apply tps_not_positive. rewrite Hz. apply Qle_refl.
  - apply tps_positive.
  - intros Hw. apply tps_not_positive. by apply Qlt_le_weak.
  - intros st'. destruct (Qlt_le_dec 0 w) as [Hw|Hw].
    + by rewrite (tps_positive count w st Hw).
    + by rewrite (tps_not_positive count w st Hw).
Qed.

Lemma tps_zero_when_no_time_witness :
  tps 1000 0 Toy.world0 = (inr 0%Q, Toy.world0) /\
  tps 1000 250 Toy.world0
  = (inr (inject_Z (Z.of_nat 1000) / (250 / 1000))%Q, Toy.world0).
Proof.
  split.
  - apply (proj1 (tps_zero_when_no_time 1000 0 Toy.world0)). reflexivity.
  - apply (proj1 (proj2 (tps_zero_when_no_time 1000 250 Toy.world0))).
    reflexivity.
Defined.

(** C7 as stated fails: the clock of [Toy.env_back] steps back between
    the two readings of the write phase, [run_baseline] measures a write
    time of -1000 ms, and for it the rate is 0, which is not
    [count / (w / 1000)]. *)
Lemma tps_of_negative_time :
  (exists read_ms w',
     run_baseline Toy.env_back [] Toy.world_ready
     = (inr ((-1000)%Q, read_ms), w')) /\
  tps 1000 (-1000) Toy.world0 = (inr 0%Q, Toy.world0) /\
  ~ (0 == inject_Z (Z.of_nat 1000) / (-1000 / 1000))%Q.
Proof.
  split_and!.
  - eexists _, _. vm_compute. reflexivity.
  - reflexivity.
  - by vm_compute.
Qed.

(** ** C8: every strategy of a batch receives the same data set *)

(** C8.  In one turn of the batch loop, whatever the results dictionary
    and the world: [generate_dummy_data] returns [count] records, once;
    the strategy calls made in that turn are, in this order and as far as
    the turn gets, [run_baseline], [run_aes] and [run_hybrid], each on
    that same list of records; and a turn that returns has made all
    three. *)
Theorem strategies_share_dataset `{C : Crypto} (E : Env) (results : Results)
    (count : nat) (w : World) :
  exists data w1,
    generate_dummy_data E count w = (inr data, w1) /\
    length data = count /\
    exists k,
      calls (snd (run_batch E results count w))
        = calls w ++ take k [("run_baseline", data); ("run_aes", data);
                             ("run_hybrid", data)] /\
      (forall r w', run_batch E results count w = (inr r, w') -> k = 3).
Proof.
  destruct (generate_dummy_data_total E count w) as (data & w1 & Hgen & Hlen).
  exists data, w1. split; [done|]. split; [done|].
  unfold run_batch. rewrite (bind_inr _ _ _ _ _ Hgen).
  pose proof (keeps_generate_dummy_data E count w) as Hw1.
  rewrite Hgen in Hw1. cbn in Hw1. rewrite <- Hw1.
  set (expected := [("run_baseline", data); ("run_aes", data);
                    ("run_hybrid", data)]).
  apply (batch_trace_start (calls w1) expected); [|done].
  eapply batch_trace_call; [apply run_baseline_calls|done|]. intros [wm rm].
  do 4 (apply batch_trace_keep;
        [auto using keeps_get_exact_storage_size, keeps_results_append|];
        intros ?).
  eapply batch_trace_call; [apply run_aes_calls|done|]. intros [wm' rm'].
  do 4 (apply batch_trace_keep;
        [auto using keeps_get_exact_storage_size, keeps_results_append|];
        intros ?).
  eapply batch_trace_call; [apply run_hybrid_calls|done|]. intros [wm2 rm2].
  do 4 (apply batch_trace_keep;
        [auto using keeps_get_exact_storage_size, keeps_results_append|];
        intros ?).
  apply batch_trace_keep; [apply keeps_truncate_tables|]. intros _.
  apply (batch_trace_done _ expected).
Qed.

(** ** C9: one key per record in the envelope scheme *)

(** C9.  For a data set whose fields all encode, the envelope write loop
    succeeds and draws 100 random bytes per record.  Record [i] gets the
    32 bytes at offset [100 * i] as its key; its row holds the three
    fields encrypted under that key, each with a nonce of its own, and
    then the key wrapped under the public key (with a 20-byte seed), and
    nothing else.  The byte ranges of the keys of two different records
    do not overlap: every key is a draw of its own. *)
Theorem envelope_key_per_record `{C : Crypto} (E : Env) (pub : RsaPub)
    (data : list Row) (ptss : list (list bytes)) (w : World) :
  Forall2 encodings data ptss ->
  exists rows,
    collect data (hybrid_encrypt_row E pub) w
      = (inr rows, set_rng_pos (rng_pos w + 100 * length data) w) /\
    length rows = length data /\
    (forall (i : nat) (pts : list bytes),
       ptss !! i = Some pts ->
       let pos := rng_pos w + 100 * i in
       let row_key := random_at E pos 32 in
       length row_key = 32 /\
       rows !! i = Some (
         imap (fun j pt =>
                 field_blob row_key (random_at E (pos + 32 + 16 * j) 16) pt) pts
         ++ [oaep_encrypt pub (random_at E (pos + 80) 20) row_key])) /\
    (forall i j a b : nat,
       i <> j -> a < 32 -> b < 32 ->
       rng_pos w + 100 * i + a <> rng_pos w + 100 * j + b).
Proof.
  intros Hdata. eexists. split; [by apply collect_hybrid_encrypt_row|].
  split; [by rewrite length_imap, (Forall2_length _ _ _ Hdata)|].
  split; [|lia].
  intros i pts Hpts pos row_key. split; [apply random_at_length|].
  rewrite list_lookup_imap, Hpts. cbn [fmap option_fmap option_map].
  unfold envelope_at. fold pos. fold row_key.
  assert (length pts = 3) as ->;
    [|by replace (pos + 32 + 16 * 3) with (pos + 80) by lia].
  destruct (Forall2_lookup_r _ _ _ _ _ Hdata Hpts) as (row & _ & Hrow).
  by destruct (fields_encodable_length row pts Hrow) as (? & ? & ? & ->).
Qed.

Lemma envelope_key_per_record_witness :
  exists rows,
    collect [(str_of "Alice", str_of "a@x.com", str_of "hi");
             (str_of "Bob", str_of "b@x.com", str_of "yo")]
      (hybrid_encrypt_row (C := Toy.crypto) Toy.env Toy.key32) Toy.world0
    = (inr rows, set_rng_pos 200 Toy.world0) /\
    length rows = 2.
Proof.
  destruct (envelope_key_per_record (C := Toy.crypto) Toy.env Toy.key32
    [(str_of "Alice", str_of "a@x.com", str_of "hi");
     (str_of "Bob", str_of "b@x.com", str_of "yo")]
    [[[x41; x6c; x69; x63; x65]; [x61; x40; x78; x2e; x63; x6f; x6d];
      [x68; x69]];
     [[x42; x6f; x62]; [x62; x40; x78; x2e; x63; x6f; x6d]; [x79; x6f]]]
    Toy.world0) as (rows & Hrows & Hlen & _).
  - repeat constructor.
  - exists rows. split; [exact Hrows|exact Hlen].
Defined.

(** ** C10: a failed size query reads as an empty table *)

(** C10.  When the size query raises a database error,
    [get_exact_storage_size] returns 0; when the server answers and the
    table is empty, it returns 0 as well: the two cannot be told apart
    by the value returned. *)
Theorem storage_error_reads_as_empty (E : Env) (table_name method : string) :
  (forall (w w' : World),
     storage_size_query E table_name method w = (inl MySQLError, w') ->
     get_exact_storage_size E table_name method w = (inr 0%Q, w'))
  /\
  (forall (query : Query) (w : World),
     select_query method = Some query ->
     row_octets query w = Some [] ->
     db_fault E (db_ops w) = false -> db_fault E (S (db_ops w)) = false ->
     fst (get_exact_storage_size E table_name method w) = inr 0%Q).
Proof.
  split.
  - intros w w' H. unfold get_exact_storage_size, try_except_Error.
    by rewrite H.
  - intros query w Hq Hrows Hf1 Hf2.
    unfold get_exact_storage_size, try_except_Error, storage_size_query.
    rewrite Hq. unfold connect, execute_sum, db_step, gets.
    unfold mbind, M_bind. rewrite Hf1. cbn [db_ops set_db_ops].
    rewrite Hf2.
    replace (row_octets query (set_db_ops (S (S (db_ops w)))
               (set_db_ops (S (db_ops w)) w)))
      with (row_octets query w) by (by destruct query).
    by rewrite Hrows.
Qed.

Lemma storage_error_reads_as_empty_witness :
  get_exact_storage_size Toy.env_down "patient_aes" "AES" Toy.world_ready
    = (inr 0%Q, set_db_ops 10 Toy.world_ready)
  /\
  fst (get_exact_storage_size Toy.env "patient_aes" "AES" Toy.world_ready)
    = inr 0%Q.
Proof.
  split.
  - apply (proj1 (storage_error_reads_as_empty Toy.env_down "patient_aes" "AES")).
    reflexivity.
  - by apply (proj2 (storage_error_reads_as_empty Toy.env "patient_aes" "AES")
                SumAES Toy.world_ready).
Defined.

(** * More of the script *)

(** ** What each function can raise *)

Lemma within_mret {A : Type} P (a : A) : raises_within P (mret a).
Proof. by intros w e w'. Qed.

Lemma within_gets {A : Type} P (f : World -> A) : raises_within P (gets f).
Proof. by intros w e w'. Qed.

Lemma within_modify P (f : World -> World) : raises_within P (modify f).
Proof. by intros w e w'. Qed.

Lemma within_raise {A : Type} (P : PyExc -> Prop) (e : PyExc) :
  P e -> raises_within P (raise (A := A) e).
Proof. intros He w e' w' [= <- _]. exact He. Qed.

Lemma within_bind_val {A B : Type} P (R : A -> Prop) (m : M A) (f : A -> M B) :
  raises_within P m ->
  (forall w a w', m w = (inr a, w') -> R a) ->
  (forall a, R a -> raises_within P (f a)) ->
  raises_within P (m ≫= f).
Proof.
  intros Hm HR Hf w e w'. unfold mbind, M_bind.
  destruct (m w) as [[e1|a] w1] eqn:Hrun.
  - intros [= <- _]. by eapply Hm.
  - apply Hf. by eapply HR.
Qed.

Lemma within_bind {A B : Type} P (m : M A) (f : A -> M B) :
  raises_within P m -> (forall a, raises_within P (f a)) ->
  raises_within P (m ≫= f).
Proof. intros Hm Hf. apply (within_bind_val P (fun _ => True)); auto. Qed.

Lemma within_for_each {A : Type} P (xs : list A) (body : A -> M unit) :
  (forall x, raises_within P (body x)) -> raises_within P (for_each xs body).
Proof.
  intros Hbody. induction xs as [|x rest IH]; [apply within_mret|].
  rewrite for_each_cons. by apply within_bind.
Qed.

Lemma within_collect {A B : Type} P (xs : list A) (f : A -> M B) :
  (forall x, raises_within P (f x)) -> raises_within P (collect xs f).
Proof.
  intros Hf. induction xs as [|x rest IH]; [apply within_mret|].
  rewrite collect_cons. apply within_bind; [done|]. intros y.
  apply within_bind; [done|]. intros ys. apply within_mret.
Qed.

(** A bare [except] lets nothing of the body through. *)
Lemma within_try_except {A : Type} P (body handler : M A) :
  raises_within P handler -> raises_within P (try_except body handler).
Proof.
  intros Hh w e w'. unfold try_except.
  destruct (body w) as [[e1|a] w1]; [apply Hh|done].
Qed.

(** [except Error] lets through what the body raises besides [Error]. *)
Lemma within_try_except_Error {A : Type} (P : PyExc -> Prop)
    (body handler : M A) :
  raises_within (fun e => e = MySQLError \/ P e) body ->
  raises_within P handler ->
  raises_within P (try_except_Error body handler).
Proof.
  intros Hb Hh w e w'. unfold try_except_Error.
  destruct (body w) as [[e1|a] w1] eqn:Hrun; [|done].
  destruct (Hb _ _ _ Hrun) as [->|He1]; [apply Hh|].
  destruct e1; try (by intros [= <- _]). apply Hh.
Qed.

Lemma within_weaken {A : Type} (P Q : PyExc -> Prop) (m : M A) :
  raises_within P m -> (forall e, P e -> Q e) -> raises_within Q m.
Proof. intros Hm HPQ w e w' H. eapply HPQ, Hm, H. Qed.

Section Within.
Context {C : Crypto} (E : Env).

Lemma within_db_step (P : PyExc -> Prop) :
  P MySQLError -> raises_within P (db_step E).
Proof.
  intros HP w e w'. unfold db_step. destruct (db_fault E (db_ops w)); [|done].
  by intros [= <- _].
Qed.

Lemma within_time_time P : raises_within P (time_time E).
Proof. by intros w e w'. Qed.

Lemma within_fake_call P : raises_within P (fake_call E).
Proof. by intros w e w'. Qed.

Lemma within_get_random_bytes P n : raises_within P (get_random_bytes E n).
Proof. by intros w e w'. Qed.

Lemma within_RSA_generate P bits : raises_within P (RSA_generate E bits).
Proof.
  intros w e w'. unfold RSA_generate.
  by destruct (rsa_generate bits (entropy E) (rng_pos w)).
Qed.

Lemma within_encrypt_field (P : PyExc -> Prop) (key : bytes) (text : str) :
  P UnicodeEncodeError -> length key = 32 ->
  raises_within P (encrypt_field E key text).
Proof.
  intros HP Hk w e w'. rewrite encrypt_field_eq, (key_length_32 key Hk).
  cbv zeta. destruct (utf8_encode text); [done|]. by intros [= <- _].
Qed.

Lemma within_aes_read_loop P (key : bytes) (fetched : list (list bytes)) :
  raises_within P (aes_read_loop E key fetched).
Proof. intros w e w'. by rewrite aes_read_loop_total. Qed.

Lemma within_PKCS1_OAEP_encrypt P (pub : RsaPub) (key : bytes) :
  length key = 32 -> raises_within P (PKCS1_OAEP_encrypt E pub key).
Proof.
  intros Hk w e w'. unfold PKCS1_OAEP_encrypt. rewrite Hk. cbn [Nat.ltb Nat.leb].
  unfold mbind, M_bind, get_random_bytes. by intros [= _ _].
Qed.

End Within.

Ltac within_step :=
  first
  [ apply within_mret | apply within_gets | apply within_modify
  | apply within_time_time | apply within_fake_call
  | apply within_get_random_bytes | apply within_RSA_generate
  | apply within_aes_read_loop
  | apply within_raise; cbv beta; solve [auto 6]
  | apply within_db_step; cbv beta; solve [auto 6]
  | apply within_bind; [|intros ?]
  | apply within_for_each; intros ?
  | apply within_collect; intros ?
  | match goal with
    | |- raises_within _ (match ?x with _ => _ end) => destruct x
    end ].

Ltac solve_within := autounfold with raises_only; repeat within_step.

Ltac within_next := apply within_bind; [solve [solve_within]|intros ?].

Section StrategyErrors.
Context {C : Crypto} (E : Env).

Lemma within_run_baseline data :
  raises_within (fun e => e = MySQLError) (run_baseline E data).
Proof. unfold run_baseline. solve_within. Qed.

Lemma within_run_aes data :
  raises_within (fun e => e = MySQLError \/ e = UnicodeEncodeError)
    (run_aes E data).
Proof.
  unfold run_aes. do 2 within_next.
  apply (within_bind_val _ (fun key => length key = 32));
    [solve_within|intros w key w'; apply get_random_bytes_length|].
  intros key Hk. within_next. apply within_bind.
  { unfold aes_encrypt_rows. do 2 (apply within_collect; intros ?).
    apply within_encrypt_field; auto. }
  intros rows. solve_within.
Qed.

Lemma within_hybrid_read_loop rsa_dec fetched :
  raises_within (fun e => e = MySQLError \/ e = UnicodeEncodeError
                          \/ e = IndexError)
    (hybrid_read_loop E rsa_dec fetched).
Proof.
  unfold hybrid_read_loop, log_row. apply within_for_each. intros row.
  apply within_bind; [apply within_modify|]. intros _.
  apply within_bind; [unfold index; solve_within|].
  intros blob. apply within_try_except. apply within_mret.
Qed.

Lemma within_run_hybrid data :
  raises_within (fun e => e = MySQLError \/ e = UnicodeEncodeError
                          \/ e = IndexError)
    (run_hybrid E data).
Proof.
  unfold run_hybrid. do 4 within_next. apply within_bind.
  { apply within_collect. intros row. unfold hybrid_encrypt_row.
    apply (within_bind_val _ (fun key => length key = 32));
      [solve_within|intros w key w'; apply get_random_bytes_length|].
    intros key Hk. apply within_bind.
    { apply within_collect. intros text. apply within_encrypt_field; auto. }
    intros cells. apply within_bind; [by apply within_PKCS1_OAEP_encrypt|].
    intros wrapped. apply within_mret. }
  intros rows. do 5 within_next.
  apply within_bind; [apply within_hybrid_read_loop|].
  intros _. solve_within.
Qed.

Lemma within_setup_body :
  raises_within (fun e => e = MySQLError \/ False)
    (connect E;;
     create_database E;;
     connect E;;
     drop_table_if_exists E set_patient_baseline;;
     drop_table_if_exists E set_patient_aes;;
     drop_table_if_exists E set_patient_hybrid;;
     create_table E patient_baseline set_patient_baseline;;
     create_table E patient_aes set_patient_aes;;
     create_table E patient_hybrid set_patient_hybrid).
Proof. solve_within. Qed.

End StrategyErrors.

(** ** [setup_database], [get_exact_storage_size], [tps] *)

(** X1.  [run_baseline] raises nothing but [mysql.connector.Error];
    [run_aes] nothing but that and [UnicodeEncodeError]; [run_hybrid]
    nothing but those and, for a fetched row without a fourth column,
    [IndexError].  None of them raises the [ValueError] of the cipher:
    the keys they pass have 32 bytes, and what a stored cell does to the
    read loop stays inside its [try]. *)
Theorem strategy_runs_errors `{C : Crypto} (E : Env) (data : list Row)
    (w : World) (e : PyExc) (w' : World) :
  (run_baseline E data w = (inl e, w') -> e = MySQLError) /\
  (run_aes E data w = (inl e, w') ->
     e = MySQLError \/ e = UnicodeEncodeError) /\
  (run_hybrid E data w = (inl e, w') ->
     e = MySQLError \/ e = UnicodeEncodeError \/ e = IndexError).
Proof.
  split_and!.
  - apply (within_run_baseline E data).
  - apply (within_run_aes E data).
  - apply (within_run_hybrid E data).
Qed.

(** X2.  [setup_database] never raises: whatever the server does, the
    [except Error] branch absorbs it and the function returns, so a
    failed setup does not stop [main]. *)
Theorem setup_database_never_raises `{C : Crypto} (E : Env) (w : World) :
  exists w', setup_database E w = (inr tt, w').
Proof.
  unfold setup_database, try_except_Error.
  match goal with |- context [match ?body w with _ => _ end] =>
    pose proof (within_setup_body E w) as Hbody;
    destruct (body w) as [[e|[]] w1] eqn:Hrun
  end.
  - destruct (Hbody e w1 eq_refl) as [->|[]]. by eexists.
  - by eexists.
Qed.

(** X3.  With a server that answers, [setup_database] leaves three empty
    tables whatever the tables held or whether they existed, after nine
    statements. *)
Theorem setup_database_fresh_tables `{C : Crypto} (E : Env) (w : World) :
  (forall n, db_fault E n = false) ->
  exists w',
    setup_database E w = (inr tt, w') /\
    patient_baseline w' = Some [] /\ patient_aes w' = Some [] /\
    patient_hybrid w' = Some [] /\
    db_ops w' = db_ops w + 9.
Proof.
  intros server_up.
  unfold setup_database, try_except_Error, connect, create_database,
    drop_table_if_exists, create_table, db_step, modify, gets, mbind, M_bind.
  repeat (rewrite server_up; cbn).
  eexists. split; [done|]. split_and!; try done. cbn. lia.
Qed.

Lemma setup_database_fresh_tables_witness :
  exists w',
    setup_database Toy.env
      (mkWorld 5 0 0 3 (Some [(str_of "Bob", str_of "b@x.com", str_of "yo")])
         None (Some [[]]) [] 0) = (inr tt, w') /\
    patient_baseline w' = Some [] /\ patient_aes w' = Some [] /\
    patient_hybrid w' = Some [] /\
    db_ops w' = 3 + 9.
Proof.
  apply (setup_database_fresh_tables Toy.env). reflexivity.
Defined.

(** X4.  With a [method] that is none of 'Baseline', 'AES' and 'Hybrid'
    and a server that accepts the connection, [get_exact_storage_size]
    raises [UnboundLocalError] for [query]: [except Error] does not
    catch it.  When the connection itself fails, the same call returns
    0.0. *)
Theorem storage_size_unknown_method (E : Env) (table_name method : string)
    (w : World) :
  select_query method = None ->
  get_exact_storage_size E table_name method w =
  if db_fault E (db_ops w)
  then (inr 0%Q, set_db_ops (S (db_ops w)) w)
  else (inl (UnboundLocalError "query"), set_db_ops (S (db_ops w)) w).
Proof.
  intros Hq.
  unfold get_exact_storage_size, try_except_Error, storage_size_query,
    connect, db_step, mbind, M_bind.
  rewrite Hq. by destruct (db_fault E (db_ops w)).
Qed.

Lemma storage_size_unknown_method_witness :
  get_exact_storage_size Toy.env "patient_aes" "aes" Toy.world_ready
    = (inl (UnboundLocalError "query"), set_db_ops 10 Toy.world_ready)
  /\
  get_exact_storage_size Toy.env_down "patient_aes" "aes" Toy.world_ready
    = (inr 0%Q, set_db_ops 10 Toy.world_ready).
Proof.
  split.
  - apply (storage_size_unknown_method Toy.env "patient_aes" "aes"
             Toy.world_ready eq_refl).
  - apply (storage_size_unknown_method Toy.env_down "patient_aes" "aes"
             Toy.world_ready eq_refl).
Defined.

(** X5.  The rate is never negative and never undefined: a write time
    that is zero or negative (the clock stepped back) gives 0, a
    positive one gives a positive multiple of the count. *)
Theorem tps_never_negative (count : nat) (w : Q) (st : World) :
  exists rate : Q,
    tps count w st = (inr rate, st) /\
    (0 <= rate)%Q /\ ((w <= 0)%Q -> rate = 0%Q).
Proof.
  destruct (Qlt_le_dec 0 w) as [Hpos|Hw].
  - eexists. split; [by apply tps_positive|]. split.
    + apply Qle_shift_div_l.
      * apply Qlt_shift_div_l; [reflexivity|]. by rewrite Qmult_0_l.
      * rewrite Qmult_0_l. change 0%Q with (inject_Z 0).
        rewrite <- Zle_Qle. lia.
    + intros Hw. by apply Qle_not_lt in Hw.
  - exists 0%Q. split; [by apply tps_not_positive|].
    split; [apply Qle_refl|done].
Qed.

(** ** [generate_dummy_data] and a run without a server *)

Section Generate.
Context {C : Crypto} (E : Env).

(** The record built from three consecutive Faker calls. *)
Lemma fake_row (w : World) :
  (name ← fake_call E; email ← fake_call E; notes ← fake_call E;
   mret (name, email, notes)) w =
  (inr (fake E (fake_calls w), fake E (fake_calls w + 1),
        fake E (fake_calls w + 2)),
   set_fake_calls (fake_calls w + 3) w).
Proof.
  unfold fake_call, mbind, M_bind. cbn.
  replace (fake_calls w + 1) with (S (fake_calls w)) by lia.
  replace (fake_calls w + 2) with (S (S (fake_calls w))) by lia.
  by replace (fake_calls w + 3) with (S (S (S (fake_calls w)))) by lia.
Qed.

Lemma collect_fake_rows {A : Type} (xs : list A) (w : World) :
  collect xs (fun _ =>
    name ← fake_call E; email ← fake_call E; notes ← fake_call E;
    mret (name, email, notes)) w =
  (inr ((fun i => (fake E (fake_calls w + 3 * i),
                   fake E (fake_calls w + 3 * i + 1),
                   fake E (fake_calls w + 3 * i + 2))) <$> seq 0 (length xs)),
   set_fake_calls (fake_calls w + 3 * length xs) w).
Proof.
  revert w. induction xs as [|x rest IH]; intros w.
  - cbn. rewrite Nat.add_0_r. by destruct w.
  - rewrite collect_cons. rewrite (bind_inr _ _ _ _ _ (fake_row w)).
    rewrite (bind_inr _ _ _ _ _ (IH _)), mret_eq.
    cbn [length seq fmap list_fmap]. rewrite <- fmap_S_seq, <- list_fmap_compose.
    f_equal.
    + f_equal. f_equal.
      * by rewrite Nat.mul_0_r, !Nat.add_0_r.
      * apply list_fmap_ext. intros _ i _. unfold compose. cbn [fake_calls set_fake_calls].
        by replace (fake_calls w + 3 + 3 * i) with (fake_calls w + 3 * S i) by lia.
    + destruct w. unfold set_fake_calls. cbn. f_equal. lia.
Qed.

End Generate.

(** X6.  [generate_dummy_data n] never fails and returns exactly [n]
    records, none for [n = 0].  Record [i] is made of the Faker calls
    number [3 i], [3 i + 1] and [3 i + 2] counted from the call, in the
    order name, email, notes; [3 n] calls are made in all. *)
Theorem generate_dummy_data_rows `{C : Crypto} (E : Env) (n : nat) (w : World) :
  exists data,
    generate_dummy_data E n w
      = (inr data, set_fake_calls (fake_calls w + 3 * n) w) /\
    length data = n /\
    forall i, i < n ->
      data !! i = Some (fake E (fake_calls w + 3 * i),
                        fake E (fake_calls w + 3 * i + 1),
                        fake E (fake_calls w + 3 * i + 2)).
Proof.
  unfold generate_dummy_data. rewrite collect_fake_rows, length_seq.
  eexists. split; [done|]. split; [by rewrite length_fmap, length_seq|].
  intros i Hi. rewrite list_lookup_fmap, lookup_seq_lt by done. done.
Qed.

(** X7.  Without a server [main] does not stop in [setup_database]: the
    failed connection is absorbed there, the first data set is generated
    all the same, and the run ends with the [mysql.connector.Error] that
    [run_baseline]'s own connection raises, uncaught.  Two statements
    were tried and no table was touched. *)
Theorem main_without_server `{C : Crypto} (E : Env) (w : World) :
  db_fault E (db_ops w) = true -> db_fault E (S (db_ops w)) = true ->
  exists w',
    main E w = (inl MySQLError, w') /\
    db_ops w' = db_ops w + 2 /\
    fake_calls w' = fake_calls w + 3 * 1000 /\
    patient_baseline w' = patient_baseline w /\
    patient_aes w' = patient_aes w /\
    patient_hybrid w' = patient_hybrid w.
Proof.
  intros Hsetup Hrun. unfold main.
  assert (setup_database E w = (inr tt, set_db_ops (S (db_ops w)) w)) as Hs.
  { unfold setup_database, try_except_Error, connect, db_step, mbind, M_bind.
    by rewrite Hsetup. }
  rewrite (bind_inr _ _ _ _ _ Hs).
  pose proof (collect_fake_rows E (seq 0 1000) (set_db_ops (S (db_ops w)) w))
    as Hgen.
  rewrite length_seq in Hgen.
  eexists. split.
  - apply bind_inl. unfold BATCH_SIZES. cbn [run_batches]. apply bind_inl.
    unfold run_batch, generate_dummy_data.
    rewrite (bind_inr _ _ _ _ _ Hgen). apply bind_inl.
    unfold run_baseline. erewrite bind_inr; [|done].
    apply bind_inl. unfold connect, db_step.
    cbn [db_ops set_calls set_fake_calls set_db_ops].
    by rewrite Hrun.
  - cbn [db_ops fake_calls patient_baseline patient_aes patient_hybrid
         set_db_ops set_calls set_fake_calls].
    split_and!; [lia|reflexivity..].
Qed.

Lemma main_without_server_witness :
  exists w',
    main Toy.env_down Toy.world_ready = (inl MySQLError, w') /\
    db_ops w' = 9 + 2 /\
    fake_calls w' = 0 + 3 * 1000 /\
    patient_baseline w' = Some [] /\
    patient_aes w' = Some [] /\
    patient_hybrid w' = Some [].
Proof.
  apply (main_without_server Toy.env_down Toy.world_ready); reflexivity.
Defined.

(** ** Which fetched rows the AES read loop skips *)

Lemma pure_outcome {A : Type} (m : M A) (w : World) :
  pure_m m -> (exists e, m w = (inl e, w)) \/ (exists a, m w = (inr a, w)).
Proof.
  intros Hm. specialize (Hm w). destruct (m w) as [[e|a] w1]; cbn in Hm;
    subst w1; eauto.
Qed.

Lemma for_each_pure_fails {A : Type} (xs : list A) (body : A -> M unit)
    (w : World) :
  (forall x, pure_m (body x)) ->
  (exists e, for_each xs body w = (inl e, w)) <->
  (exists x, x ∈ xs /\ exists e, body x w = (inl e, w)).
Proof.
  intros Hpure. induction xs as [|x rest IH].
  - split; [by intros [e [=]]|]. intros (x & Hx & _). by apply elem_of_nil in Hx.
  - rewrite for_each_cons.
    destruct (pure_outcome (body x) w (Hpure x)) as [[e He]|[[] Hok]].
    + rewrite (bind_inl _ _ _ _ _ He). split; [|by eauto].
      intros _. exists x. split; [by left|by eauto].
    + rewrite (bind_inr _ _ _ _ _ Hok), IH. split.
      * intros (y & Hy & Hfail). exists y. split; [by right|done].
      * intros (y & Hy & e & Hfail). apply elem_of_cons in Hy as [->|Hy].
        -- congruence.
        -- by eauto.
Qed.

Lemma filter_none {A : Type} (P : A -> Prop) `{forall x, Decision (P x)}
    (xs : list A) :
  (forall x, x ∈ xs -> ~ P x) -> filter P xs = [].
Proof.
  induction xs as [|x rest IH]; intros Hxs; [done|].
  rewrite filter_cons_False by (apply Hxs; by left).
  apply IH. intros y Hy. apply Hxs. by right.
Qed.

Section Skips.
Context {C : Crypto} (E : Env).

Lemma decrypt_step_fails (key cell : bytes) (w : World) :
  (exists e, (decrypt_cell E key cell;; mret tt) w = (inl e, w)) <->
  (exists e, decrypt_cell E key cell w = (inl e, w)).
Proof.
  destruct (pure_outcome _ w (pure_decrypt_cell E key cell))
    as [[e He]|[pt Hok]].
  - rewrite (bind_inl _ _ _ _ _ He). split; by eauto.
  - rewrite (bind_inr _ _ _ _ _ Hok), Hok. split; by intros [e [=]].
Qed.


End Skips.

(** X8.  The AES read loop skips a fetched row exactly when at least one
    of its cells fails to decode (the [try] wraps the whole row): one bad
    cell drops the record, cells that all decode never do. *)
Theorem row_skipped_iff_a_cell_fails `{C : Crypto} (E : Env) (key : bytes)
    (row : list bytes) (w : World) :
  aes_row_fails E key row w = true <->
  exists cell, cell ∈ row /\ exists e, decrypt_cell E key cell w = (inl e, w).
Proof.
  unfold aes_row_fails.
  pose proof (for_each_pure_fails row
    (fun cell => decrypt_cell E key cell;; mret tt) w) as Hiff.
  rewrite <- (exist_proper _ _ (fun cell =>
    and_iff_compat_l _ (decrypt_step_fails E key cell w))).
  rewrite <- Hiff by (intros cell; auto with pure_m).
  assert (pure_m (for_each row
    (fun cell => decrypt_cell E key cell;; mret tt))) as Hpure
    by auto 10 with pure_m.
  destruct (pure_outcome _ w Hpure) as [[e ->]|[[] ->]].
  - split; by eauto.
  - split; [done|]. by intros [e [=]].
Qed.

(** X9.  With a cipher whose decryption inverts its encryption and
    16-byte tags: of the rows the AES write loop built, the read loop
    under the same key skips none, so a skipped record always means that
    the stored row differs from the written one. *)
Theorem written_rows_are_not_skipped `{C : Crypto} (E : Env) :
  gcm_decrypt_encrypt -> gcm_mac_length ->
  forall (key : bytes) (data : list Row) (w : World)
         (rows : list (list bytes)) (w' : World),
    aes_encrypt_rows E key data w = (inr rows, w') ->
    forall w2, aes_skipped E key rows w2 = 0.
Proof.
  intros Hdec Hmac key data w rows w' Hrows w2. unfold aes_skipped.
  rewrite filter_none; [done|]. intros row Hrow Hfails.
  unfold aes_row_fails in Hfails.
  assert (exists e, for_each row
    (fun cell => decrypt_cell E key cell;; mret tt) w2 = (inl e, w2))
    as Hraise.
  { destruct (pure_outcome (for_each row
      (fun cell => decrypt_cell E key cell;; mret tt)) w2) as [?|[[] Hok]];
      [auto 10 with pure_m|done|by rewrite Hok in Hfails]. }
  apply for_each_pure_fails in Hraise as (cell & Hcell & Hstep);
    [|intros c; auto with pure_m].
  apply decrypt_step_fails in Hstep as [e Hfail].
  destruct (collect_elem _ _ _ _ _ _ Hrows Hrow) as (r & w1 & w1' & _ & Hr).
  destruct (collect_elem _ _ _ _ _ _ Hr Hcell) as (text & wa & wb & _ & Hc).
  destruct (encrypt_field_inv E key text wa cell wb Hc) as (pt & _ & Hk & ->).
  rewrite decrypt_field_blob in Hfail; [done..|apply random_at_length].
Qed.

Lemma written_rows_are_not_skipped_witness :
  exists rows w',
    aes_encrypt_rows Toy.env Toy.key32
      [(str_of "Alice", str_of "a@x.com", str_of "hi")] Toy.world0
      = (inr rows, w') /\
    aes_skipped Toy.env Toy.key32 rows Toy.world0 = 0.
Proof.
  eexists _, _. split; [reflexivity|].
  eapply (written_rows_are_not_skipped Toy.env toy_decrypt_encrypt
            toy_mac_length Toy.key32
            [(str_of "Alice", str_of "a@x.com", str_of "hi")] Toy.world0).
  reflexivity.
Defined.

(** ** What the write loops store *)

Lemma collect_Forall2 {A B : Type} (f : A -> M B) (xs : list A) w ys w' :
  collect xs f w = (inr ys, w') ->
  Forall2 (fun x y => exists w1 w2, f x w1 = (inr y, w2)) xs ys.
Proof.
  revert w ys. induction xs as [|x rest IH]; intros w ys H.
  - injection H as <- _. constructor.
  - rewrite collect_cons in H.
    destruct (bind_inv _ _ _ _ _ H) as (y & w1 & Hy & H1).
    destruct (bind_inv _ _ _ _ _ H1) as (tl & w2 & Htl & H2).
    injection H2 as <- <-. constructor; [by eauto|by eapply IH].
Qed.

Lemma sum_list_Forall2 {A B : Type} (f : A -> nat) (g : B -> nat) (c : nat)
    (xs : list A) (ys : list B) :
  Forall2 (fun x y => g y = f x + c) xs ys ->
  sum_list (g <$> ys) = sum_list (f <$> xs) + c * length xs.
Proof.
  induction 1 as [|x y xs ys Hxy _ IH]; [cbn; lia|].
  rewrite !fmap_cons. cbn [sum_list length].
  rewrite IH, Hxy, Nat.mul_succ_r. unfold id. lia.
Qed.

Section Stored.
Context {C : Crypto} (E : Env).
Hypothesis enc_length : gcm_encrypt_length.
Hypothesis mac_length : gcm_mac_length.

Lemma encrypt_field_octets (key : bytes) (text : str) w cell w' :
  encrypt_field E key text w = (inr cell, w') ->
  length cell = octet_length_text text + 32.
Proof.
  intros H. destruct (encrypt_field_inv E key text w cell w' H)
    as (pt & Hpt & _ & ->).
  unfold field_blob, octet_length_text.
  rewrite Hpt, !length_app, random_at_length, mac_length, enc_length. lia.
Qed.

Lemma encrypted_cells_octets (key : bytes) (texts : list str) w cells w' :
  collect texts (encrypt_field E key) w = (inr cells, w') ->
  sum_list (length <$> cells)
  = sum_list (octet_length_text <$> texts) + 32 * length texts.
Proof.
  intros H. apply sum_list_Forall2.
  eapply Forall2_impl; [by eapply collect_Forall2|].
  intros text cell (w1 & w2 & Hcell). by eapply encrypt_field_octets.
Qed.

Lemma aes_row_octets (key : bytes) (row : Row) w cells w' :
  collect (fields row) (encrypt_field E key) w = (inr cells, w') ->
  sum_list (length <$> take 3 cells)
  = sum_list (octet_length_text <$> fields row) + 96.
Proof.
  intros H. pose proof (collect_length _ _ _ _ _ H) as Hlen.
  assert (length (fields row) = 3) as Hthree by (by destruct row as [[? ?] ?]).
  rewrite take_ge by lia.
  rewrite (encrypted_cells_octets key (fields row) w cells w' H). lia.
Qed.

Lemma hybrid_row_octets (pub : RsaPub) (row : Row) w enc_row w' :
  oaep_encrypt_length ->
  hybrid_encrypt_row E pub row w = (inr enc_row, w') ->
  sum_list (length <$> take 4 enc_row)
  = sum_list (octet_length_text <$> fields row) + 352.
Proof.
  intros Hwrap H. unfold hybrid_encrypt_row in H.
  destruct (bind_inv _ _ _ _ _ H) as (key & w1 & Hkey & H1).
  destruct (bind_inv _ _ _ _ _ H1) as (cells & w2 & Hcells & H2).
  destruct (bind_inv _ _ _ _ _ H2) as (wrapped & w3 & Hwrapped & H3).
  injection H3 as <- _.
  pose proof (get_random_bytes_length E _ _ _ _ Hkey) as Hk.
  pose proof (collect_length _ _ _ _ _ Hcells) as Hlen.
  assert (length (fields row) = 3) as Hthree by (by destruct row as [[? ?] ?]).
  assert (length wrapped = 256) as Hw.
  { unfold PKCS1_OAEP_encrypt in Hwrapped. rewrite Hk in Hwrapped.
    cbn [Nat.ltb Nat.leb] in Hwrapped.
    destruct (bind_inv _ _ _ _ _ Hwrapped) as (seed & w4 & Hseed & H4).
    injection H4 as <- _. apply Hwrap; [|lia].
    by eapply get_random_bytes_length. }
  rewrite take_ge by (rewrite length_app; cbn; lia).
  rewrite fmap_app, sum_list_with_app.
  rewrite (encrypted_cells_octets key (fields row) w1 cells w2 Hcells).
  cbn. lia.
Qed.

End Stored.

(** X10.  With a cipher that keeps the plaintext length, 16-byte tags
    and 256-byte wraps: when the three tables hold a data set and the
    rows the AES and the envelope write loops built from it, the byte
    sum of the size query is, per record, 96 bytes larger for the AES
    table than for the baseline table (a nonce and a tag for each of
    three fields) and 352 bytes larger for the hybrid table (the wrapped
    key on top). *)
Theorem stored_bytes_per_record `{C : Crypto} (E : Env) :
  gcm_encrypt_length -> gcm_mac_length -> oaep_encrypt_length ->
  forall (key : bytes) (pub : RsaPub) (data : list Row)
         (w1 w1' w2 w2' : World) (aes_rows hybrid_rows : list (list bytes))
         (w : World),
    aes_encrypt_rows E key data w1 = (inr aes_rows, w1') ->
    collect data (hybrid_encrypt_row E pub) w2 = (inr hybrid_rows, w2') ->
    patient_baseline w = Some data ->
    patient_aes w = Some aes_rows ->
    patient_hybrid w = Some hybrid_rows ->
    exists plain aes hybrid,
      row_octets SumBaseline w = Some plain /\
      row_octets SumAES w = Some aes /\
      row_octets SumHybrid w = Some hybrid /\
      sum_list aes = sum_list plain + 96 * length data /\
      sum_list hybrid = sum_list plain + 352 * length data.
Proof.
  intros Henc Hmac Hwrap key pub data w1 w1' w2 w2' aes_rows hybrid_rows w
    Haes Hhyb Hb Ha Hh.
  unfold row_octets. rewrite Hb, Ha, Hh. eexists _, _, _.
  split_and!; [done..| |].
  - apply (sum_list_Forall2
             (fun row => sum_list (octet_length_text <$> fields row))
             (fun row : list bytes => sum_list (length <$> take 3 row))).
    eapply Forall2_impl; [by eapply collect_Forall2|].
    intros row cells (wa & wb & Hrow). by eapply aes_row_octets.
  - apply (sum_list_Forall2
             (fun row => sum_list (octet_length_text <$> fields row))
             (fun row : list bytes => sum_list (length <$> take 4 row))).
    eapply Forall2_impl; [by eapply collect_Forall2|].
    intros row enc_row (wa & wb & Hrow). by eapply hybrid_row_octets.
Qed.

Lemma stored_bytes_per_record_witness :
  exists plain aes hybrid,
    row_octets SumBaseline toy_world_full = Some plain /\
    row_octets SumAES toy_world_full = Some aes /\
    row_octets SumHybrid toy_world_full = Some hybrid /\
    sum_list aes = sum_list plain + 96 * 1 /\
    sum_list hybrid = sum_list plain + 352 * 1.
Proof.
  apply (stored_bytes_per_record (C := Toy.crypto) Toy.env toy_encrypt_length
           toy_mac_length toy_oaep_encrypt_length Toy.key32 Toy.key32 toy_data
           Toy.world0 (set_rng_pos 48 Toy.world0)
           Toy.world0 (set_rng_pos 100 Toy.world0)
           toy_aes_rows toy_hybrid_rows toy_world_full);
    reflexivity.
Defined.
